(** * PCG-XSH-RR generator of [rng.js]: shallow embedding and verification

    The class [RNG] of [src/rng.js] is embedded as a record for the
    generator object, a heap of JavaScript arrays, and an exception/state
    monad in which each method is written statement by statement.

    Number model.  BigInt values are [Z].  A JavaScript Number that holds an
    integer is [number Z] (with [NaN]); its sums and differences are rounded
    to binary64 ([round64]), its remainders are exact as in binary64.  A
    Number used as a real is [number Q] with exact rational arithmetic: the
    results about [rand] are stated for arguments on which binary64 is
    exact. *)

From Stdlib Require Import ZArith Zdivisibility QArith Lqa List Ascii String Lia.
From stdpp Require Import gmap list.

Local Open Scope Z_scope.

(** ** Values *)

Inductive number (T : Type) : Type :=
| NaN : number T
| Num : T -> number T.
Arguments NaN {T}.
Arguments Num {T} _.

Inductive value : Type :=
| VUndefined : value
| VNum : Z -> value
| VStr : string -> value.

Inductive error : Type :=
| RangeError
| TypeError
| ReferenceError
| SyntaxError.

(** ** The generator object and the heap of arrays *)

Record RNG : Type := mkRNG {
  state : Z;
  multiplier : Z;
  increment : Z
}.

(** [new RNG()] with the default arguments of the constructor. *)
Definition default_RNG : RNG :=
  mkRNG 0x4d595df4d0f33173 6364136223846793005 1442695040888963407.

Definition loc := positive.

Record world : Type := mkWorld {
  this : RNG;
  heap : gmap loc (list value)
}.

Definition set_state (s : Z) (w : world) : world :=
  mkWorld (mkRNG s (multiplier (this w)) (increment (this w))) (heap w).

(** ** Outcomes and the monad of methods *)

Inductive outcome (A : Type) : Type :=
| Ret : A -> outcome A
| Throw : error -> outcome A
| OutOfFuel : outcome A.
Arguments Ret {A} _.
Arguments Throw {A} _.
Arguments OutOfFuel {A}.

Definition M (A : Type) : Type := world -> outcome A * world.

Definition ret {A} (a : A) : M A := fun w => (Ret a, w).
Definition throw {A} (e : error) : M A := fun w => (Throw e, w).
Definition diverge {A} : M A := fun w => (OutOfFuel, w).

Definition bind {A B} (m : M A) (k : A -> M B) : M B :=
  fun w =>
    match m w with
    | (Ret a, w') => k a w'
    | (Throw e, w') => (Throw e, w')
    | (OutOfFuel, w') => (OutOfFuel, w')
    end.

Notation "x <- m ;; k" := (bind m (fun x => k))
  (at level 100, m at next level, right associativity).
Notation "m ;;; k" := (bind m (fun _ => k))
  (at level 100, right associativity).

Definition get_this : M RNG := fun w => (Ret (this w), w).
Definition put_state (s : Z) : M unit := fun w => (Ret tt, set_state s w).

(** ** BigInt to binary text and back: [#pad_or_truncate] *)

Definition c0 : ascii := "0"%char.
Definition c1 : ascii := "1"%char.
Definition cminus : ascii := "-"%char.

(** Binary digits of a positive, most significant first, in front of [acc]. *)
Fixpoint pos_to_binary (p : positive) (acc : list ascii) : list ascii :=
  match p with
  | xH => c1 :: acc
  | xO q => pos_to_binary q (c0 :: acc)
  | xI q => pos_to_binary q (c1 :: acc)
  end.

(** [x.toString(2)] of a BigInt. *)
Definition toString2 (x : Z) : list ascii :=
  match x with
  | Z0 => [c0]
  | Zpos p => pos_to_binary p []
  | Zneg p => cminus :: pos_to_binary p []
  end.

(** [s.slice(-n)]: the last [n] characters; [slice(-0)] is [slice(0)]. *)
Definition slice_last (n : nat) (s : list ascii) : list ascii :=
  match n with
  | O => s
  | _ => skipn (length s - n)%nat s
  end.

(** The text after the ["0b"] prefix that [#pad_or_truncate] builds. *)
Definition pad_or_truncate (x : Z) (bits : nat) : list ascii :=
  let binary := toString2 x in
  if (length binary <=? bits)%nat
  then repeat c0 (bits - length binary)%nat ++ binary
  else slice_last bits binary.

Definition digit (c : ascii) : option Z :=
  if Ascii.eqb c c0 then Some 0
  else if Ascii.eqb c c1 then Some 1
  else None.

Fixpoint parse_binary (acc : Z) (s : list ascii) : option Z :=
  match s with
  | [] => Some acc
  | c :: s' =>
      match digit c with
      | Some d => parse_binary (2 * acc + d) s'
      | None => None
      end
  end.

(** [BigInt("0b" + s)]: a SyntaxError unless [s] is a non-empty run of
    binary digits. *)
Definition BigInt_0b (s : list ascii) : M Z :=
  match s with
  | [] => throw SyntaxError
  | _ => match parse_binary 0 s with
         | Some z => ret z
         | None => throw SyntaxError
         end
  end.

(** ** The output permutation and the step function *)

(** [#rotr32(x, r)] on BigInts. *)
Definition rotr32 (x r : Z) : Z :=
  Z.land (Z.lor (Z.shiftr x r) (Z.shiftl x (Z.land (- r) 31))) 4294967295.

(** [call()]: the value returned is [Number] of a BigInt below [2^32]. *)
Definition call : M Z :=
  g <- get_this ;;
  let x := state g in
  s <- BigInt_0b (pad_or_truncate (state g * multiplier g + increment g) 64) ;;
  put_state s ;;;
  let count := Z.shiftr x 59 in
  let x := Z.land (Z.shiftr (Z.lxor x (Z.shiftr x 18)) 27) 4294967295 in
  ret (rotr32 x count).

(** [init(seed)] *)
Definition init (seed : Z) : M unit :=
  g <- get_this ;;
  put_state (seed + increment g) ;;;
  call ;;;
  ret tt.

(** ** Number arguments *)

(** An optional argument is [None] when omitted ([undefined]). *)
Definition arg (T : Type) : Type := option (number T).

(** [undefined] in arithmetic is [NaN]. *)
Definition to_number {T} (a : arg T) : number T :=
  match a with
  | Some n => n
  | None => NaN
  end.

Definition lift2 {T} (f : T -> T -> T) (a b : number T) : number T :=
  match a, b with
  | Num x, Num y => Num (f x y)
  | _, _ => NaN
  end.

(** Integer-valued Numbers. *)
Definition truthyZ (a : arg Z) : bool :=
  match a with
  | Some (Num z) => negb (z =? 0)
  | _ => false
  end.

(** JavaScript [%]: the remainder takes the sign of the dividend and is
    [NaN] for a zero divisor. *)
Definition js_rem (a b : number Z) : number Z :=
  match a, b with
  | Num x, Num y => if y =? 0 then NaN else Num (Z.rem x y)
  | _, _ => NaN
  end.

Definition js_neg (a : number Z) : number Z :=
  match a with
  | Num x => Num (- x)
  | NaN => NaN
  end.

Definition js_gt0 (a : number Z) : bool :=
  match a with
  | Num x => 0 <? x
  | NaN => false
  end.

(** The integer that binary64 holds for the integer [z]: [z] itself up to
    [2^53] in magnitude, and beyond that the nearest multiple of the spacing
    [2^e] of doubles around [z], a tie going to the even significand. *)
Definition round64 (z : Z) : Z :=
  let a := Z.abs z in
  if a <=? 2 ^ 53 then z
  else
    let e := Z.log2 a - 52 in
    let q := a / 2 ^ e in
    let r := a mod 2 ^ e in
    let h := 2 ^ (e - 1) in
    let q' := if (h <? r) || ((r =? h) && Z.odd q) then q + 1 else q in
    Z.sgn z * (q' * 2 ^ e).

(** [a + b] and [a - b] on integer-valued Numbers.  (Beyond the largest
    double a difference is [Infinity] in JavaScript; [randint] uses it only as
    the divisor of [%] under a 32-bit dividend, where [Infinity] and any
    finite value above [2^32] alike give back the dividend.) *)
Definition js_add (a b : number Z) : number Z :=
  lift2 (fun x y => round64 (x + y)) a b.

Definition js_sub (a b : number Z) : number Z :=
  lift2 (fun x y => round64 (x - y)) a b.

(** [randint(min, max)] *)
Definition randint (min max : arg Z) : M (number Z) :=
  if truthyZ max then
    u <- call ;;
    ret (js_add (js_rem (Num u) (js_sub (to_number max) (to_number min)))
                (to_number min))
  else if truthyZ min then
    if js_gt0 (to_number min) then
      u <- call ;;
      ret (js_rem (Num u) (to_number min))
    else
      u <- call ;;
      ret (js_add (js_rem (Num u) (js_neg (to_number min))) (to_number min))
  else
    u <- call ;;
    ret (Num u).

(** Real-valued Numbers. *)
Definition truthyQ (a : arg Q) : bool :=
  match a with
  | Some (Num q) => negb (Qnum q =? 0)
  | _ => false
  end.

(** [2**-32] *)
Definition two_m32 : Q := 1 # 4294967296.

(** [rand(min, max)] *)
Definition rand (min max : arg Q) : M (number Q) :=
  if truthyQ max then
    u <- call ;;
    ret (lift2 Qplus
           (lift2 Qmult (Num (inject_Z u * two_m32)%Q)
                        (lift2 Qminus (to_number max) (to_number min)))
           (to_number min))
  else if truthyQ min then
    u <- call ;;
    ret (lift2 Qmult (Num (inject_Z u * two_m32)%Q) (to_number min))
  else
    u <- call ;;
    ret (Num (inject_Z u * two_m32)%Q).

(** ** Arrays on the heap *)

Definition alloc (xs : list value) : M loc :=
  fun w =>
    let l := fresh (dom (heap w)) in
    (Ret l, mkWorld (this w) (<[l := xs]> (heap w))).

Definition array_read (a : loc) : M (list value) :=
  fun w =>
    match heap w !! a with
    | Some xs => (Ret xs, w)
    | None => (Throw TypeError, w)
    end.

Definition array_write (a : loc) (xs : list value) : M unit :=
  fun w => (Ret tt, mkWorld (this w) (<[a := xs]> (heap w))).

(** [a.length] *)
Definition array_length (a : loc) : M nat :=
  xs <- array_read a ;;
  ret (length xs).

(** [a.push(v)] *)
Definition push (a : loc) (v : value) : M unit :=
  xs <- array_read a ;;
  array_write a (xs ++ [v]).

(** [a.unshift(v)] *)
Definition unshift (a : loc) (v : value) : M unit :=
  xs <- array_read a ;;
  array_write a (v :: xs).

(** [a.shift()]: [undefined] on an empty array. *)
Definition shift (a : loc) : M value :=
  xs <- array_read a ;;
  match xs with
  | [] => ret VUndefined
  | x :: xs' => array_write a xs' ;;; ret x
  end.

(** [a.pop()]: [undefined] on an empty array. *)
Definition pop (a : loc) : M value :=
  xs <- array_read a ;;
  match xs with
  | [] => ret VUndefined
  | _ => array_write a (removelast xs) ;;; ret (List.last xs VUndefined)
  end.

(** The start index of [splice]: [NaN] is 0, a negative start counts from
    the end, and the result is clamped to the length. *)
Definition relative_start (start : number Z) (len : nat) : nat :=
  match start with
  | NaN => O
  | Num z =>
      if z <? 0 then Z.to_nat (Z.max (Z.of_nat len + z) 0)
      else Nat.min (Z.to_nat z) len
  end.

(** [a.splice(start, deleteCount)], returning the removed elements. *)
Definition splice (a : loc) (start : number Z) (deleteCount : nat) : M (list value) :=
  xs <- array_read a ;;
  let s := relative_start start (length xs) in
  array_write a (firstn s xs ++ skipn (s + deleteCount) xs) ;;;
  ret (firstn deleteCount (skipn s xs)).

(** [xs[i]] on a value already read. *)
Definition index (xs : list value) (i : nat) : value := nth i xs VUndefined.

(** ** Permutations *)

Inductive perm_input : Type :=
| InNum : number Z -> perm_input
| InArr : loc -> perm_input.

(** [Array.from(Array(n), (_, i) => i)] *)
Definition iota (n : number Z) : M (list value) :=
  match n with
  | Num z =>
      if (0 <=? z) && (z <? 4294967296)
      then ret (map (fun i => VNum (Z.of_nat i)) (seq 0 (Z.to_nat z)))
      else throw RangeError
  | NaN => throw RangeError
  end.

(** The first [while] of [randperm] and of [permute]:
    [while (from.length > 1) to.push(from.splice(this.randint(from.length), 1)[0])]. *)
Fixpoint draw_loop (fuel : nat) (from to : loc) : M unit :=
  match fuel with
  | O => diverge
  | S fuel' =>
      len <- array_length from ;;
      if (1 <? len)%nat then
        i <- randint (Some (Num (Z.of_nat len))) None ;;
        removed <- splice from i 1 ;;
        push to (index removed 0) ;;;
        draw_loop fuel' from to
      else ret tt
  end.

(** [randperm(array)] *)
Definition randperm (array : perm_input) : M loc :=
  newArray <- alloc [] ;;
  contents <- match array with
              | InNum n => iota n
              | InArr a => array_read a
              end ;;
  oldArray <- alloc contents ;;
  draw_loop (S (length contents)) oldArray newArray ;;;
  v <- shift oldArray ;;
  push newArray v ;;;
  ret newArray.

(** The second [while] of [permute]:
    [while (oldArray.length > 0) array.unshift(oldArray.pop())]. *)
Fixpoint refill_loop (fuel : nat) (array oldArray : loc) : M unit :=
  match fuel with
  | O => diverge
  | S fuel' =>
      len <- array_length oldArray ;;
      if (0 <? len)%nat then
        v <- pop oldArray ;;
        unshift array v ;;;
        refill_loop fuel' array oldArray
      else ret tt
  end.

(** [permute(array)] *)
Definition permute (array : loc) : M unit :=
  oldArray <- alloc [] ;;
  n <- array_length array ;;
  draw_loop (S n) array oldArray ;;;
  m <- array_length oldArray ;;
  refill_loop (S m) array oldArray.

(** ** Weighted choice *)

(** [xs.reduce((x, e) => x + e)]: a TypeError on an empty array. *)
Definition reduce_add (xs : list Q) : M Q :=
  match xs with
  | [] => throw TypeError
  | x :: xs' => ret (fold_left Qplus xs' x)
  end.

(** The identifier [p] of line 112 is bound nowhere in the module:
    evaluating it is a ReferenceError. *)
Definition p : M (list Q) := throw ReferenceError.

(** [probabilities.map((e, i) => p.slice(0, i + 1).reduce((x, e) => x + e))],
    the callback running once per element, in index order from [i]. *)
Fixpoint map_cumulative (i : nat) (probabilities : list Q) : M (list Q) :=
  match probabilities with
  | [] => ret []
  | _ :: rest =>
      ps <- p ;;
      c <- reduce_add (firstn (i + 1) ps) ;;
      cs <- map_cumulative (S i) rest ;;
      ret (c :: cs)
  end.

(** [number < e] *)
Definition js_lt (number : number Q) (e : Q) : bool :=
  match number with
  | Num q => negb (Qle_bool e q)
  | NaN => false
  end.

(** [xs.findIndex(f)]: the first index that satisfies [f], or -1. *)
Fixpoint findIndex (f : Q -> bool) (i : Z) (xs : list Q) : Z :=
  match xs with
  | [] => -1
  | x :: xs' => if f x then i else findIndex f (i + 1) xs'
  end.

(** [items[i]] for an integer [i]: [undefined] out of range. *)
Definition indexZ (items : list value) (i : Z) : value :=
  if i <? 0 then VUndefined else index items (Z.to_nat i).

(** [choose(probabilities, array)] *)
Definition choose (probabilities : list Q) (array : option (list value)) : M value :=
  items <- match array with
           | None => ret (map (fun i => VNum (Z.of_nat i)) (seq 0 (length probabilities)))
           | Some items =>
               if negb (length probabilities =? length items)%nat
               then throw RangeError
               else ret items
           end ;;
  normalizer <- reduce_add probabilities ;;
  number <- rand (Some (Num normalizer)) None ;;
  cumulative <- map_cumulative 0 probabilities ;;
  ret (indexZ items (findIndex (js_lt number) 0 cumulative)).

(** ** Definitions used to state the properties *)

(** [new RNG()] and no array allocated yet. *)
Definition default_world : world := mkWorld default_RNG ∅.

(** The integers up to [2^53] in magnitude: binary64 holds each of them. *)
Definition int53 (z : Z) : Prop := - 2 ^ 53 <= z <= 2 ^ 53.

(** A generator as section 3 has it: the three fields are unsigned 64-bit
    integers. *)
Definition u64 (z : Z) : Prop := 0 <= z < 2 ^ 64.

Definition wf (g : RNG) : Prop :=
  u64 (state g) /\ u64 (multiplier g) /\ u64 (increment g).

(** The state after one advance from state [x]. *)
Definition advance (g : RNG) (x : Z) : Z :=
  (x * multiplier g + increment g) mod 2 ^ 64.

(** The raw output derived from a pre-advance state [x], as [call] computes it. *)
Definition output (x : Z) : Z :=
  rotr32 (Z.land (Z.shiftr (Z.lxor x (Z.shiftr x 18)) 27) 4294967295) (Z.shiftr x 59).

(** Rotate-right within 32 bits as section 4.1, step 5 words it:
    [(y >> count) | (y << ((32 - count) mod 32))], masked to 32 bits. *)
Definition rotate_right32 (y count : Z) : Z :=
  Z.lor (Z.shiftr y count) (Z.shiftl y ((32 - count) mod 32)) mod 2 ^ 32.

(** The generator after one [call]. *)
Definition next_gen (g : RNG) : RNG :=
  mkRNG (advance g (state g)) (multiplier g) (increment g).

(** What the drawing loop does to the contents [xs] of its source array:
    the elements drawn, in order, what is left, and the generator after. *)
Fixpoint draws (fuel : nat) (g : RNG) (xs : list value) : list value * list value * RNG :=
  match fuel with
  | O => ([], xs, g)
  | S fuel' =>
      if (1 <? length xs)%nat then
        let i := Z.to_nat (output (state g) mod Z.of_nat (length xs)) in
        let '(d, r, g') := draws fuel' (next_gen g) (firstn i xs ++ skipn (i + 1) xs) in
        (index (firstn 1 (skipn i xs)) 0 :: d, r, g')
      else ([], xs, g)
  end.

(** The value that the last statement of [randperm] pushes:
    [oldArray.shift()] of what the loop left. *)
Definition shifted (r : list value) : value :=
  match r with
  | [] => VUndefined
  | x :: _ => x
  end.

(** A heap with one array, at address 1. *)
Definition one_array (xs : list value) : world :=
  mkWorld default_RNG {[1%positive := xs]}.

(** * Verification *)

Example call_default : fst (call default_world) = Ret 676697322.
Proof. vm_compute. reflexivity. Qed.

(** ** Binary text *)

Lemma digit_c0 : digit c0 = Some 0.
Proof. reflexivity. Qed.

Lemma digit_c1 : digit c1 = Some 1.
Proof. reflexivity. Qed.

Lemma pos_to_binary_length (q : positive) (acc : list ascii) :
  length (pos_to_binary q acc) = (Pos.size_nat q + length acc)%nat.
Proof.
  revert acc. induction q as [q IH | q IH |]; intros acc; simpl.
  - rewrite IH. simpl. lia.
  - rewrite IH. simpl. lia.
  - reflexivity.
Qed.

Lemma parse_pos_to_binary (q : positive) (acc : list ascii) (a : Z) :
  parse_binary a (pos_to_binary q acc)
  = parse_binary (a * 2 ^ Z.of_nat (Pos.size_nat q) + Zpos q) acc.
Proof.
  revert acc a. induction q as [q IH | q IH |]; intros acc a.
  - cbn [pos_to_binary Pos.size_nat]. rewrite IH. cbn [parse_binary].
    rewrite digit_c1. f_equal.
    rewrite Nat2Z.inj_succ, Z.pow_succ_r by lia. lia.
  - cbn [pos_to_binary Pos.size_nat]. rewrite IH. cbn [parse_binary].
    rewrite digit_c0. f_equal.
    rewrite Nat2Z.inj_succ, Z.pow_succ_r by lia. lia.
  - cbn [pos_to_binary Pos.size_nat parse_binary]. rewrite digit_c1.
    f_equal. change (2 ^ Z.of_nat 1) with 2. lia.
Qed.

Lemma parse_toString2 (x : Z) : 0 <= x -> parse_binary 0 (toString2 x) = Some x.
Proof.
  destruct x as [| q | q]; intros Hx.
  - reflexivity.
  - unfold toString2. rewrite parse_pos_to_binary. reflexivity.
  - lia.
Qed.

Lemma toString2_nonempty (x : Z) : toString2 x <> [].
Proof.
  destruct x as [| q | q]; cbn; try discriminate.
  intros H. apply (f_equal (@length ascii)) in H.
  rewrite pos_to_binary_length in H. destruct q; cbn in H; lia.
Qed.

Lemma parse_binary_app (s1 s2 : list ascii) (a : Z) :
  parse_binary a (s1 ++ s2)
  = match parse_binary a s1 with
    | Some v => parse_binary v s2
    | None => None
    end.
Proof.
  revert a. induction s1 as [| c s1 IH]; intros a; cbn.
  - reflexivity.
  - destruct (digit c); [apply IH | reflexivity].
Qed.

Lemma parse_binary_zeros (k : nat) (s : list ascii) :
  parse_binary 0 (repeat c0 k ++ s) = parse_binary 0 s.
Proof.
  induction k as [| k IH]; cbn.
  - reflexivity.
  - exact IH.
Qed.

(** Changing the accumulator shifts the result by a multiple of
    [2^length]. *)
Lemma parse_binary_acc (s : list ascii) (a b v : Z) :
  parse_binary a s = Some v ->
  parse_binary b s = Some (v + (b - a) * 2 ^ Z.of_nat (length s)).
Proof.
  revert a b v. induction s as [| c s IH]; intros a b v H; cbn in *.
  - injection H as <-. f_equal. lia.
  - destruct (digit c) as [d |]; [| discriminate].
    rewrite (IH _ (2 * b + d) _ H). f_equal.
    rewrite Nat2Z.inj_succ, Z.pow_succ_r by lia. ring.
Qed.

Lemma parse_binary_range (s : list ascii) (v : Z) :
  parse_binary 0 s = Some v -> 0 <= v < 2 ^ Z.of_nat (length s).
Proof.
  enough (G : forall a w, 0 <= a -> parse_binary a s = Some w ->
              a * 2 ^ Z.of_nat (length s) <= w < (a + 1) * 2 ^ Z.of_nat (length s)).
  { intros H. specialize (G 0 v ltac:(lia) H). lia. }
  induction s as [| c s IH]; intros a w Ha H; cbn [parse_binary length] in *.
  - injection H as <-. change (2 ^ Z.of_nat 0) with 1. lia.
  - unfold digit in H.
    rewrite Nat2Z.inj_succ, Z.pow_succ_r by lia.
    assert (Hp : 0 < 2 ^ Z.of_nat (length s)) by (apply Z.pow_pos_nonneg; lia).
    destruct (Ascii.eqb c c0).
    + apply IH in H; [nia | lia].
    + destruct (Ascii.eqb c c1); [| discriminate].
      apply IH in H; [nia | lia].
Qed.

Lemma BigInt_0b_parse (s : list ascii) (z : Z) (w : world) :
  s <> [] -> parse_binary 0 s = Some z -> BigInt_0b s w = (Ret z, w).
Proof.
  intros Hs Hp. destruct s; [congruence |].
  unfold BigInt_0b. rewrite Hp. reflexivity.
Qed.

(** [BigInt(#pad_or_truncate(x))] is [x mod 2^64] for a non-negative [x]. *)
Lemma pad_or_truncate_mod (x : Z) (w : world) :
  0 <= x ->
  BigInt_0b (pad_or_truncate x 64) w = (Ret (x mod 2 ^ 64), w).
Proof.
  intros Hx. pose proof (parse_toString2 x Hx) as Hp.
  pose proof (toString2_nonempty x) as Hne.
  pose proof (parse_binary_range _ _ Hp) as Hr.
  unfold pad_or_truncate.
  destruct (Nat.leb_spec (length (toString2 x)) 64) as [Hl | Hl].
  - apply BigInt_0b_parse.
    + destruct (toString2 x); [congruence |].
      intros H. apply app_eq_nil in H. destruct H; discriminate.
    + rewrite parse_binary_zeros, Hp. f_equal.
      symmetry. apply Z.mod_small. split; [lia |].
      eapply Z.lt_le_trans; [apply Hr |].
      apply Z.pow_le_mono_r; lia.
  - unfold slice_last.
    set (k := (length (toString2 x) - 64)%nat).
    assert (Hlen : length (skipn k (toString2 x)) = 64%nat)
      by (rewrite length_skipn; lia).
    rewrite <- (firstn_skipn k (toString2 x)) in Hp.
    rewrite parse_binary_app in Hp.
    destruct (parse_binary 0 (firstn k (toString2 x))) as [hi |] eqn:Hhi;
      [| discriminate].
    pose proof (parse_binary_acc _ _ 0 _ Hp) as Hlo.
    pose proof (parse_binary_range _ _ Hlo) as Hlr.
    rewrite Hlen in Hlo, Hlr. change (Z.of_nat 64) with 64 in *.
    apply BigInt_0b_parse.
    + intros H. rewrite H in Hlen. discriminate.
    + rewrite Hlo. f_equal.
      apply (Z.mod_unique_pos _ _ hi); lia.
Qed.

Lemma call_eq (w : world) :
  0 <= state (this w) * multiplier (this w) + increment (this w) ->
  call w = (Ret (output (state (this w))),
            set_state (advance (this w) (state (this w))) w).
Proof.
  intros H. unfold call, bind, get_this.
  rewrite (pad_or_truncate_mod _ w H). reflexivity.
Qed.

Lemma wf_nonneg (g : RNG) :
  wf g -> 0 <= state g * multiplier g + increment g.
Proof. unfold wf, u64. intros (Hs & Hm & Hi). nia. Qed.

Lemma wf_set_state (w : world) (s : Z) :
  wf (this w) -> u64 s -> wf (this (set_state s w)).
Proof. unfold wf. cbn. tauto. Qed.

Lemma advance_u64 (g : RNG) (x : Z) : u64 (advance g x).
Proof. unfold u64, advance. apply Z.mod_pos_bound. lia. Qed.

(** ** The 32-bit rotation *)

Lemma rotr32_rotate_right32 (x r : Z) : rotr32 x r = rotate_right32 x r.
Proof.
  unfold rotr32, rotate_right32.
  change 4294967295 with (Z.ones 32). change 31 with (Z.ones 5).
  rewrite !Z.land_ones by lia. do 2 f_equal.
  change (2 ^ 5) with 32.
  replace (32 - r) with (- r + 1 * 32) by ring.
  now rewrite Z.mod_add by lia.
Qed.

Lemma testbit_above (y n i : Z) :
  0 <= y < 2 ^ n -> n <= i -> Z.testbit y i = false.
Proof.
  intros Hy Hi. destruct (Z.eq_dec y 0) as [-> | Hne].
  - apply Z.testbit_0_l.
  - apply Z.bits_above_log2; [lia |].
    assert (Z.log2 y < n) by (apply Z.log2_lt_pow2; lia). lia.
Qed.

(** Bit [i] of the rotation is bit [i + count] of the argument, counted
    around the 32-bit word. *)
Lemma rotate_right32_testbit (y count i : Z) :
  0 <= y < 2 ^ 32 -> 0 <= count < 32 -> 0 <= i < 32 ->
  Z.testbit (rotate_right32 y count) i = Z.testbit y ((i + count) mod 32).
Proof.
  intros Hy Hc Hi. unfold rotate_right32.
  rewrite Z.mod_pow2_bits_low by lia.
  rewrite Z.lor_spec, Z.shiftr_spec, Z.shiftl_spec by lia.
  destruct (Z.eq_dec count 0) as [-> | Hc0].
  - change ((32 - 0) mod 32) with 0.
    rewrite Z.add_0_r, Z.sub_0_r, Z.mod_small by lia.
    apply orb_diag.
  - rewrite (Z.mod_small (32 - count)) by lia.
    destruct (Z_lt_ge_dec (i + count) 32) as [Hlt | Hge].
    + rewrite (Z.mod_small (i + count)) by lia.
      rewrite (Z.testbit_neg_r y (i - (32 - count))) by lia.
      apply orb_false_r.
    + rewrite (testbit_above y 32 (i + count)) by lia.
      replace ((i + count) mod 32) with (i - (32 - count)); [reflexivity |].
      apply (Z.mod_unique_pos _ _ 1); lia.
Qed.

Lemma rotate_right32_range (y count : Z) : 0 <= rotate_right32 y count < 2 ^ 32.
Proof. unfold rotate_right32. apply Z.mod_pos_bound. lia. Qed.

Lemma output_range (x : Z) : 0 <= output x < 2 ^ 32.
Proof. unfold output. rewrite rotr32_rotate_right32. apply rotate_right32_range. Qed.

Lemma shiftr59_range (x : Z) : u64 x -> 0 <= Z.shiftr x 59 < 32.
Proof.
  unfold u64. intros Hx. rewrite Z.shiftr_div_pow2 by lia. split.
  - apply Z.div_pos; lia.
  - apply Z.div_lt_upper_bound; lia.
Qed.

(** ** The step function *)

(** C1.  From a generator whose three fields are unsigned 64-bit integers,
    [call] returns the 32-bit rotate-right of
    [((x xor (x >> 18)) >> 27) mod 2^32] by [x >> 59], where [x] is the state
    before the call; the returned value is in [[0, 2^32)], each of its bits
    [i] is bit [(i + (x >> 59)) mod 32] of the rotated word, and the only
    change to the world is that the state becomes
    [(x * multiplier + increment) mod 2^64]. *)
Theorem call_spec (w : world) :
  wf (this w) ->
  let x := state (this w) in
  let y := Z.shiftr (Z.lxor x (Z.shiftr x 18)) 27 mod 2 ^ 32 in
  let count := Z.shiftr x 59 in
  call w = (Ret (rotate_right32 y count),
            set_state ((x * multiplier (this w) + increment (this w)) mod 2 ^ 64) w)
  /\ 0 <= rotate_right32 y count < 2 ^ 32
  /\ forall i, 0 <= i < 32 ->
       Z.testbit (rotate_right32 y count) i = Z.testbit y ((i + count) mod 32).
Proof.
  intros Hwf x y count. split; [| split].
  - rewrite (call_eq w (wf_nonneg _ Hwf)). unfold output.
    rewrite rotr32_rotate_right32.
    change 4294967295 with (Z.ones 32). rewrite Z.land_ones by lia.
    reflexivity.
  - apply rotate_right32_range.
  - intros i Hi. apply rotate_right32_testbit.
    + apply Z.mod_pos_bound. lia.
    + apply shiftr59_range, Hwf.
    + exact Hi.
Qed.

Lemma default_wf : wf (this default_world).
Proof. unfold wf, u64. cbn. lia. Qed.

Lemma call_spec_witness :
  wf (this default_world)
  /\ fst (call default_world) = Ret 676697322.
Proof.
  split; [exact default_wf |].
  destruct (call_spec default_world default_wf) as (H & _ & _).
  rewrite H. vm_compute. reflexivity.
Defined.

Lemma set_state_twice (w : world) (s1 s2 : Z) :
  set_state s2 (set_state s1 w) = set_state s2 w.
Proof. reflexivity. Qed.

Lemma call_returns (w : world) :
  wf (this w) ->
  call w = (Ret (output (state (this w))),
            set_state (advance (this w) (state (this w))) w).
Proof. intros Hwf. apply call_eq, wf_nonneg, Hwf. Qed.

Lemma bind_Ret {A B} (m : M A) (k : A -> M B) (w : world) (a : A) (w' : world) :
  m w = (Ret a, w') -> bind m k w = k a w'.
Proof. intros H. unfold bind. now rewrite H. Qed.

Lemma bind_Throw {A B} (m : M A) (k : A -> M B) (w : world) (e : error) (w' : world) :
  m w = (Throw e, w') -> bind m k w = (Throw e, w').
Proof. intros H. unfold bind. now rewrite H. Qed.

(** One statement of a method has run and returned: continue with the rest. *)
Ltac run H := rewrite (bind_Ret _ _ _ _ _ H).

(** ** Seeding *)

(** C3.  For a seed in [[0, 2^64)], [init(seed)] returns, and behaves
    exactly as storing [(seed + increment) mod 2^64] in [state] and then
    running one [call] whose output is dropped: when it returns, the state is
    [(((seed + increment) mod 2^64) * multiplier + increment) mod 2^64] and
    nothing else has changed.  (Line 41 stores the sum unreduced; the
    reduction modulo [2^64] happens in the advance of the [call] that
    follows, with the same result.) *)
Theorem init_spec (w : world) (seed : Z) :
  u64 seed -> wf (this w) ->
  let g := this w in
  let s0 := (seed + increment g) mod 2 ^ 64 in
  init seed w = (Ret tt, set_state ((s0 * multiplier g + increment g) mod 2 ^ 64) w)
  /\ init seed w = (put_state s0 ;;; call ;;; ret tt) w.
Proof.
  intros Hseed Hwf g s0.
  assert (Hadv : advance g (seed + increment g) = advance g s0).
  { unfold advance, s0.
    rewrite (Z.add_mod (_ mod _ * _)), Z.mul_mod_idemp_l by lia.
    now rewrite <- Z.add_mod by lia. }
  assert (Hpos : 0 <= (seed + increment g) * multiplier g + increment g).
  { destruct Hwf as (_ & Hm & Hi). fold g in Hm, Hi. unfold u64 in *. nia. }
  assert (E1 : init seed w = (Ret tt, set_state (advance g s0) w)).
  { unfold init.
    rewrite (bind_Ret get_this _ w g w eq_refl).
    rewrite (bind_Ret (put_state _) _ w tt (set_state (seed + increment g) w) eq_refl).
    run (call_eq (set_state (seed + increment g) w) Hpos).
    unfold ret. rewrite set_state_twice. f_equal. f_equal. exact Hadv. }
  split; [exact E1 |].
  assert (Hwf0 : wf (this (set_state s0 w))).
  { apply wf_set_state; [exact Hwf |]. apply Z.mod_pos_bound. lia. }
  rewrite E1.
  rewrite (bind_Ret (put_state _) _ w tt (set_state s0 w) eq_refl).
  rewrite (bind_Ret call _ _ _ _ (call_returns (set_state s0 w) Hwf0)).
  reflexivity.
Qed.

Lemma init_spec_witness :
  u64 18446744073709551615 /\ wf (this default_world)
  /\ fst (init 18446744073709551615 default_world) = Ret tt.
Proof.
  split; [unfold u64; lia |]. split; [exact default_wf |].
  destruct (init_spec default_world 18446744073709551615) as [H _].
  - unfold u64; lia.
  - exact default_wf.
  - rewrite H. reflexivity.
Defined.

(** The state that line 41 itself stores is the unreduced sum. *)
Example init_line41_unreduced :
  state (this (snd ((g <- get_this ;; put_state (18446744073709551615 + increment g))
                     default_world)))
  = 2 ^ 64 + 1442695040888963406.
Proof. reflexivity. Qed.

(** ** Uniform integers *)

Lemma round64_exact (z : Z) : int53 z -> round64 z = z.
Proof.
  unfold int53, round64. intros Hz.
  destruct (Z.leb_spec (Z.abs z) (2 ^ 53)); [reflexivity | lia].
Qed.

(** Above [2^53] the rounded value stays at or above [2^53]. *)
Lemma round64_large (z : Z) : 2 ^ 53 < z -> 2 ^ 53 <= round64 z.
Proof.
  intros Hz. unfold round64.
  rewrite (Z.abs_eq z) by lia.
  destruct (Z.leb_spec z (2 ^ 53)) as [Hle | _]; [lia |].
  rewrite (Z.sgn_pos z), Z.mul_1_l by lia.
  set (e := Z.log2 z - 52).
  assert (Hlog : 53 <= Z.log2 z) by (apply Z.log2_le_pow2; lia).
  assert (He : 1 <= e) by (subst e; lia).
  assert (Hq : 2 ^ 52 <= z / 2 ^ e).
  { apply Z.div_le_lower_bound; [apply Z.pow_pos_nonneg; lia |].
    rewrite <- Z.pow_add_r by lia. replace (e + 52) with (Z.log2 z) by (subst e; lia).
    apply Z.log2_spec. lia. }
  assert (Hp : 2 <= 2 ^ e).
  { change 2 with (2 ^ 1) at 1. apply Z.pow_le_mono_r; lia. }
  destruct ((2 ^ (e - 1) <? z mod 2 ^ e)
            || (z mod 2 ^ e =? 2 ^ (e - 1)) && Z.odd (z / 2 ^ e)); nia.
Qed.

Lemma js_add_exact (x y : Z) :
  int53 (x + y) -> js_add (Num x) (Num y) = Num (x + y).
Proof. intros H. unfold js_add, lift2. f_equal. apply round64_exact, H. Qed.

Lemma js_rem_pos (u d : Z) :
  0 <= u -> 0 < d -> js_rem (Num u) (Num d) = Num (u mod d).
Proof.
  intros Hu Hd. unfold js_rem.
  destruct (Z.eqb_spec d 0) as [E | _]; [lia |].
  f_equal. apply Z.rem_mod_nonneg; lia.
Qed.

(** [u % (max - min)] for a 32-bit [u]: exact, whether or not the difference
    is rounded. *)
Lemma js_rem_sub (u min max : Z) :
  0 <= u < 2 ^ 32 -> min < max ->
  js_rem (Num u) (js_sub (Num max) (Num min)) = Num (u mod (max - min)).
Proof.
  intros Hu Hlt. unfold js_sub, lift2.
  destruct (Z_le_gt_dec (max - min) (2 ^ 53)) as [Hsmall | Hbig].
  - rewrite (round64_exact (max - min)) by (unfold int53; lia).
    apply js_rem_pos; lia.
  - pose proof (round64_large (max - min) ltac:(lia)) as Hd.
    rewrite js_rem_pos by lia.
    f_equal. rewrite !Z.mod_small by lia. reflexivity.
Qed.

(** C7 as stated fails beyond [2^53], where the sum of line 49 is rounded:
    from state [2^64 - 1], [randint(2^53 + 2, 2^53 + 4)] draws [u] with
    [u mod 2 = 1] and returns [2^53 + 4], which is [max] itself and not
    [u mod (max - min) + min = 2^53 + 3]. *)
Lemma randint_rounds_to_max :
  exists u w',
    call (set_state (2 ^ 64 - 1) default_world) = (Ret u, w')
    /\ randint (Some (Num (2 ^ 53 + 2))) (Some (Num (2 ^ 53 + 4)))
         (set_state (2 ^ 64 - 1) default_world)
       = (Ret (Num (2 ^ 53 + 4)), w')
    /\ u mod (2 ^ 53 + 4 - (2 ^ 53 + 2)) + (2 ^ 53 + 2) = 2 ^ 53 + 3
    /\ ~ (2 ^ 53 + 4 < 2 ^ 53 + 4).
Proof.
  exists (output (2 ^ 64 - 1)), (snd (call (set_state (2 ^ 64 - 1) default_world))).
  split; [vm_compute; reflexivity |].
  split; [vm_compute; reflexivity |].
  split; [vm_compute; reflexivity | lia].
Qed.

(** C7, amended.  For integers [min < max] of magnitude at most [2^53] (all
    safe integers), [randint(min, max)] draws one raw output [u] with [call]
    and returns [u mod (max - min) + min], a value in [[min, max)]. *)
Theorem randint_two_bounds (w : world) (min max : Z) :
  wf (this w) -> int53 min -> int53 max -> min < max ->
  exists u w',
    call w = (Ret u, w')
    /\ randint (Some (Num min)) (Some (Num max)) w
       = (Ret (Num (u mod (max - min) + min)), w')
    /\ min <= u mod (max - min) + min < max.
Proof.
  intros Hwf Hsmin Hsmax Hlt.
  exists (output (state (this w))), (set_state (advance (this w) (state (this w))) w).
  pose proof (output_range (state (this w))) as Hu.
  pose proof (Z.mod_pos_bound (output (state (this w))) (max - min) ltac:(lia)) as Hv.
  split; [apply call_returns, Hwf |]. split; [| lia].
  unfold randint, truthyZ.
  destruct (Z.eqb_spec max 0) as [-> | Hmax]; cbn [negb].
  - destruct (Z.eqb_spec min 0) as [-> | Hmin]; [lia |]. cbn [negb to_number js_gt0].
    destruct (Z.ltb_spec 0 min) as [Hpos | _]; [lia |].
    unfold bind. rewrite call_returns by exact Hwf.
    unfold ret. cbn [js_neg]. rewrite js_rem_pos by lia.
    change (0 - min) with (- min) in Hv |- *.
    rewrite js_add_exact by (unfold int53 in *; lia). reflexivity.
  - unfold bind. rewrite call_returns by exact Hwf.
    unfold ret. cbn [to_number]. rewrite js_rem_sub by lia.
    rewrite js_add_exact by (unfold int53 in *; lia). reflexivity.
Qed.

Lemma randint_two_bounds_witness :
  wf (this default_world) /\ int53 (-3) /\ int53 4 /\ (-3) < 4
  /\ fst (randint (Some (Num (-3))) (Some (Num 4)) default_world) = Ret (Num (-3)).
Proof.
  split; [exact default_wf |].
  split; [unfold int53; lia |]. split; [unfold int53; lia |]. split; [lia |].
  destruct (randint_two_bounds default_world (-3) 4 default_wf
              ltac:(unfold int53; lia) ltac:(unfold int53; lia) ltac:(lia))
    as (u & w' & Hc & Hr & _).
  rewrite Hr. vm_compute in Hc. injection Hc as <- _. reflexivity.
Defined.

(** A single positive bound, as the loops of [randperm] and [permute] use it. *)
Lemma randint_one_bound (w : world) (n : Z) :
  wf (this w) -> 0 < n ->
  randint (Some (Num n)) None w
  = (Ret (Num (output (state (this w)) mod n)),
     set_state (advance (this w) (state (this w))) w).
Proof.
  intros Hwf Hn. pose proof (output_range (state (this w))) as Hu.
  unfold randint, truthyZ. cbn [to_number js_gt0].
  destruct (Z.eqb_spec n 0) as [E | _]; [lia |]. cbn [negb].
  destruct (Z.ltb_spec 0 n) as [_ | E]; [| lia].
  unfold bind. rewrite call_returns by exact Hwf.
  unfold ret, js_rem.
  destruct (Z.eqb_spec n 0) as [E | _]; [lia |].
  now rewrite Z.rem_mod_nonneg by lia.
Qed.

(** ** A zero bound *)

(** C4 as stated fails: on the default generator [randint(0)] and [rand(0)]
    both return a value, and so throw nothing. *)
Lemma zero_bound_returns :
  (fst (randint (Some (Num 0)) None default_world) = Ret (Num 676697322)
   /\ forall e, fst (randint (Some (Num 0)) None default_world) <> Throw e)
  /\ (fst (rand (Some (Num 0%Q)) None default_world)
      = Ret (Num (inject_Z 676697322 * two_m32)%Q)
      /\ forall e, fst (rand (Some (Num 0%Q)) None default_world) <> Throw e).
Proof.
  split; (split; [vm_compute; reflexivity | intros e; vm_compute; discriminate]).
Qed.

(** C4, amended.  A single bound equal to zero is falsy, so [randint(0)] and
    [rand(0)] take the branch of a call without arguments: neither throws;
    [randint(0)] returns the raw output [u] of one [call], in [[0, 2^32)],
    and [rand(0)] returns [u * 2^-32]; each advances the state once. *)
Theorem zero_bound_is_no_bound (w : world) (z : Q) :
  wf (this w) -> Qnum z = 0 ->
  exists u w',
    call w = (Ret u, w')
    /\ 0 <= u < 2 ^ 32
    /\ randint (Some (Num 0)) None w = (Ret (Num u), w')
    /\ rand (Some (Num z)) None w = (Ret (Num (inject_Z u * two_m32)%Q), w').
Proof.
  intros Hwf Hz.
  exists (output (state (this w))), (set_state (advance (this w) (state (this w))) w).
  split; [apply call_returns, Hwf |].
  split; [apply output_range |]. split.
  - unfold randint. cbn [truthyZ Z.eqb negb]. unfold bind.
    now rewrite call_returns by exact Hwf.
  - unfold rand, truthyQ. rewrite Hz. cbn [Z.eqb negb]. unfold bind.
    now rewrite call_returns by exact Hwf.
Qed.

Lemma zero_bound_is_no_bound_witness :
  wf (this default_world) /\ Qnum 0%Q = 0
  /\ exists w', randint (Some (Num 0)) None default_world = (Ret (Num 676697322), w').
Proof.
  split; [exact default_wf |]. split; [reflexivity |].
  destruct (zero_bound_is_no_bound default_world 0%Q default_wf eq_refl)
    as (u & w' & Hc & _ & Hr & _).
  exists w'. rewrite Hr. vm_compute in Hc. injection Hc as <- _. reflexivity.
Defined.

(** ** Uniform reals *)

Lemma base_range (u : Z) :
  0 <= u < 2 ^ 32 -> (0 <= inject_Z u * two_m32 /\ inject_Z u * two_m32 < 1)%Q.
Proof. intros Hu. unfold Qle, Qlt, inject_Z, two_m32. cbn. lia. Qed.

Lemma truthyQ_nonzero (q : Q) : ~ (q == 0)%Q -> truthyQ (Some (Num q)) = true.
Proof.
  intros H. unfold truthyQ. destruct (Z.eqb_spec (Qnum q) 0) as [E | _]; [| reflexivity].
  exfalso. apply H. unfold Qeq. cbn. lia.
Qed.

(** In exact arithmetic, with a non-zero [max], [rand(min, max)] is
    [call() * 2^-32 * (max - min) + min], which lies in [[min, max)]. *)
Lemma rand_two_bounds (w : world) (min max : Q) :
  wf (this w) -> ~ (max == 0)%Q -> (min < max)%Q ->
  exists u w',
    call w = (Ret u, w')
    /\ rand (Some (Num min)) (Some (Num max)) w
       = (Ret (Num (inject_Z u * two_m32 * (max - min) + min)%Q), w')
    /\ (min <= inject_Z u * two_m32 * (max - min) + min)%Q
    /\ (inject_Z u * two_m32 * (max - min) + min < max)%Q.
Proof.
  intros Hwf Hmax Hlt.
  exists (output (state (this w))), (set_state (advance (this w) (state (this w))) w).
  split; [apply call_returns, Hwf |]. split.
  - unfold rand. rewrite (truthyQ_nonzero _ Hmax). unfold bind.
    now rewrite call_returns by exact Hwf.
  - destruct (base_range _ (output_range (state (this w)))) as [H0 H1].
    split; nra.
Qed.

(** C5 at [rand(-5, 0)] on the default generator: [max = 0] is falsy, the
    branch of a single bound runs and returns [u * 2^-32 * (-5)] for the raw
    output [u = 676697322], which is not [u * 2^-32 * (0 - (-5)) + (-5)]. *)
Theorem rand_zero_max :
  fst (rand (Some (Num (-5 # 1)%Q)) (Some (Num 0%Q)) default_world)
  = Ret (Num (inject_Z 676697322 * two_m32 * (-5 # 1))%Q)
  /\ ~ (inject_Z 676697322 * two_m32 * (-5 # 1)
        == inject_Z 676697322 * two_m32 * (0 - (-5 # 1)) + (-5 # 1))%Q.
Proof.
  split.
  - vm_compute. reflexivity.
  - intros H. vm_compute in H. discriminate.
Qed.

(** With a zero [max] and a negative [min], the value is [u * 2^-32 * min]:
    the upper end [max = 0] is returned when [u = 0]. *)
Lemma rand_falsy_max (w : world) (min : Q) :
  wf (this w) -> (min < 0)%Q ->
  rand (Some (Num min)) (Some (Num 0%Q)) w
  = (Ret (Num (inject_Z (output (state (this w))) * two_m32 * min)%Q),
     set_state (advance (this w) (state (this w))) w).
Proof.
  intros Hwf Hmin. unfold rand.
  change (truthyQ (Some (Num 0%Q))) with false. cbv iota.
  rewrite (truthyQ_nonzero min) by (intros E; lra).
  unfold bind. now rewrite call_returns by exact Hwf.
Qed.

(** ** Weighted choice *)

(** C10.  When [items] is given and its length differs from that of
    [probabilities], [choose] throws a RangeError and the world, the
    generator state included, is the one before the call: nothing was drawn. *)
Theorem choose_length_mismatch (w : world) (probabilities : list Q) (items : list value) :
  length probabilities <> length items ->
  choose probabilities (Some items) w = (Throw RangeError, w).
Proof.
  intros Hlen. unfold choose, bind.
  destruct (Nat.eqb_spec (length probabilities) (length items)) as [E | _];
    [contradiction |].
  reflexivity.
Qed.

Lemma choose_length_mismatch_witness :
  choose [1%Q; 2%Q] (Some [VStr "a"]) default_world = (Throw RangeError, default_world).
Proof. apply (choose_length_mismatch default_world [1%Q; 2%Q] [VStr "a"]). cbn. lia. Defined.

Lemma rand_one_bound_state (w : world) (a : number Q) :
  wf (this w) ->
  exists r, rand (Some a) None w
            = (Ret r, set_state (advance (this w) (state (this w))) w).
Proof.
  intros Hwf. unfold rand. change (truthyQ None) with false. cbv iota.
  destruct (truthyQ (Some a)); unfold bind; rewrite call_returns by exact Hwf;
    eexists; reflexivity.
Qed.

(** C2 on the code: for every non-empty [probabilities], with [items] omitted
    or of the same length, [choose] draws its random number and then throws a
    ReferenceError at the unbound identifier [p] of line 112; it returns no
    item. *)
Theorem choose_throws (w : world) (probabilities : list Q) (array : option (list value)) :
  wf (this w) ->
  probabilities <> [] ->
  (forall items, array = Some items -> length probabilities = length items) ->
  choose probabilities array w
  = (Throw ReferenceError, set_state (advance (this w) (state (this w))) w).
Proof.
  intros Hwf Hne Hlen. destruct probabilities as [| x xs]; [congruence |].
  destruct (rand_one_bound_state w (Num (fold_left Qplus xs x)) Hwf) as [r Hr].
  unfold choose.
  assert (Hitems : exists items,
             match array with
             | None => ret (map (fun i => VNum (Z.of_nat i)) (seq 0 (length (x :: xs))))
             | Some items =>
                 if negb (length (x :: xs) =? length items)%nat
                 then throw RangeError
                 else ret items
             end w = (Ret items, w)).
  { destruct array as [items |].
    - exists items. rewrite (Hlen items eq_refl), Nat.eqb_refl. reflexivity.
    - eexists. reflexivity. }
  destruct Hitems as [items Hitems].
  run Hitems.
  rewrite (bind_Ret _ _ w (fold_left Qplus xs x) w eq_refl).
  run Hr.
  reflexivity.
Qed.

Lemma choose_throws_witness :
  fst (choose [1%Q; 2%Q; 3%Q] None default_world) = Throw ReferenceError.
Proof.
  rewrite (choose_throws default_world [1%Q; 2%Q; 3%Q] None default_wf).
  - reflexivity.
  - discriminate.
  - discriminate.
Defined.

(** ** Array operations on a known heap *)

Lemma array_read_eq (w : world) (a : loc) (xs : list value) :
  heap w !! a = Some xs -> array_read a w = (Ret xs, w).
Proof. intros H. unfold array_read. now rewrite H. Qed.

Lemma array_length_eq (w : world) (a : loc) (xs : list value) :
  heap w !! a = Some xs -> array_length a w = (Ret (length xs), w).
Proof.
  intros H. unfold array_length.
  now run (array_read_eq w a xs H).
Qed.

Lemma push_eq (w : world) (a : loc) (xs : list value) (v : value) :
  heap w !! a = Some xs ->
  push a v w = (Ret tt, mkWorld (this w) (<[a := xs ++ [v]]> (heap w))).
Proof.
  intros H. unfold push.
  now run (array_read_eq w a xs H).
Qed.

Lemma unshift_eq (w : world) (a : loc) (xs : list value) (v : value) :
  heap w !! a = Some xs ->
  unshift a v w = (Ret tt, mkWorld (this w) (<[a := v :: xs]> (heap w))).
Proof.
  intros H. unfold unshift.
  now run (array_read_eq w a xs H).
Qed.

Lemma splice_eq (w : world) (a : loc) (xs : list value) (start : number Z) (n : nat) :
  heap w !! a = Some xs ->
  let s := relative_start start (length xs) in
  splice a start n w
  = (Ret (firstn n (skipn s xs)),
     mkWorld (this w) (<[a := firstn s xs ++ skipn (s + n) xs]> (heap w))).
Proof.
  intros H s. unfold splice.
  now run (array_read_eq w a xs H).
Qed.

Lemma relative_start_in_range (z : Z) (len : nat) :
  0 <= z < Z.of_nat len -> relative_start (Num z) len = Z.to_nat z.
Proof.
  intros Hz. unfold relative_start.
  destruct (Z.ltb_spec z 0); lia.
Qed.

Lemma world_eta (w : world) : mkWorld (this w) (heap w) = w.
Proof. now destruct w. Qed.

(** Writing two arrays again overwrites the earlier writes. *)
Lemma insert_pair_absorb (h : gmap loc (list value)) (a b : loc)
      (A B C D : list value) :
  <[b := A]> (<[a := B]> (<[b := C]> (<[a := D]> h))) = <[b := A]> (<[a := B]> h).
Proof.
  apply map_eq. intros i.
  destruct (decide (i = b)) as [-> | Hb]; [now rewrite !lookup_insert_eq |].
  rewrite !(lookup_insert_ne _ b) by congruence.
  destruct (decide (i = a)) as [-> | Ha]; [now rewrite !lookup_insert_eq |].
  rewrite !(lookup_insert_ne _ a) by congruence.
  rewrite !(lookup_insert_ne _ b) by congruence.
  now rewrite !(lookup_insert_ne _ a) by congruence.
Qed.

(** ** The drawing loop *)

Lemma next_gen_wf (g : RNG) : wf g -> wf (next_gen g).
Proof.
  unfold wf, next_gen. cbn. intros (_ & Hm & Hi).
  split; [apply advance_u64 | tauto].
Qed.

Lemma draw_loop_spec (fuel : nat) :
  forall (w : world) (from to : loc) (xs acc : list value),
    wf (this w) -> from <> to ->
    heap w !! from = Some xs -> heap w !! to = Some acc ->
    (length xs < fuel)%nat ->
    draw_loop fuel from to w
    = (Ret tt,
       mkWorld (draws fuel (this w) xs).2
               (<[to := acc ++ (draws fuel (this w) xs).1.1]>
                  (<[from := (draws fuel (this w) xs).1.2]> (heap w)))).
Proof.
  induction fuel as [| fuel IH]; intros w from to xs acc Hwf Hne Hfrom Hto Hlen;
    [lia |].
  cbn [draw_loop draws].
  run (array_length_eq w from xs Hfrom).
  destruct (Nat.ltb_spec 1 (length xs)) as [Hgt | Hle].
  - set (u := output (state (this w))).
    set (z := u mod Z.of_nat (length xs)).
    assert (Hz : 0 <= z < Z.of_nat (length xs)) by (apply Z.mod_pos_bound; lia).
    run (randint_one_bound w (Z.of_nat (length xs)) Hwf ltac:(lia)).
    fold u z.
    change (set_state (advance (this w) (state (this w))) w)
      with (mkWorld (next_gen (this w)) (heap w)).
    set (w1 := mkWorld (next_gen (this w)) (heap w)).
    pose proof (splice_eq w1 from xs (Num z) 1 Hfrom) as Hsp. cbv zeta in Hsp.
    rewrite relative_start_in_range in Hsp by exact Hz.
    run Hsp.
    set (i := Z.to_nat z) in *.
    set (xs' := firstn i xs ++ skipn (i + 1) xs).
    set (v := index (firstn 1 (skipn i xs)) 0).
    set (w2 := mkWorld (this w1) (<[from := xs']> (heap w1))).
    assert (Hto2 : heap w2 !! to = Some acc).
    { subst w2 w1. cbn. rewrite lookup_insert_ne by exact Hne. exact Hto. }
    run (push_eq w2 to acc v Hto2).
    set (w3 := mkWorld (this w2) (<[to := acc ++ [v]]> (heap w2))).
    assert (Hlen' : (length xs' < fuel)%nat).
    { subst xs'. rewrite length_app, length_firstn, length_skipn. lia. }
    rewrite (IH w3 from to xs' (acc ++ [v])).
    + subst w3 w2 w1. cbn [this heap].
      destruct (draws fuel (next_gen (this w)) xs') as [[d r] g'] eqn:Ed.
      cbn [fst snd]. f_equal. f_equal.
      rewrite <- app_assoc. cbn [app]. apply insert_pair_absorb.
    + subst w3 w2 w1. cbn. apply next_gen_wf, Hwf.
    + exact Hne.
    + subst w3. cbn. rewrite lookup_insert_ne by congruence.
      subst w2. cbn. apply lookup_insert_eq.
    + subst w3. cbn. apply lookup_insert_eq.
    + exact Hlen'.
  - cbn [fst snd ret]. rewrite app_nil_r.
    rewrite (insert_id (heap w) from xs Hfrom), (insert_id (heap w) to acc Hto).
    now rewrite world_eta.
Qed.

Lemma draws_empty (fuel : nat) (g : RNG) : draws fuel g [] = ([], [], g).
Proof. destruct fuel; reflexivity. Qed.

(** From a non-empty array the loop stops with exactly one element left. *)
Lemma draws_rest (fuel : nat) :
  forall (g : RNG) (xs : list value),
    xs <> [] -> (length xs < fuel)%nat ->
    exists x, (draws fuel g xs).1.2 = [x].
Proof.
  induction fuel as [| fuel IH]; intros g xs Hne Hlen; [lia |].
  cbn [draws].
  destruct (Nat.ltb_spec 1 (length xs)) as [Hgt | Hle].
  - set (i := Z.to_nat (output (state g) mod Z.of_nat (length xs))).
    assert (Hi : (i < length xs)%nat).
    { subst i. pose proof (Z.mod_pos_bound (output (state g)) (Z.of_nat (length xs))).
      lia. }
    destruct (IH (next_gen g) (firstn i xs ++ skipn (i + 1) xs)) as [x Hx].
    + intros E. apply (f_equal (@length value)) in E.
      rewrite length_app, length_firstn, length_skipn in E. cbn in E. lia.
    + rewrite length_app, length_firstn, length_skipn. lia.
    + destruct (draws fuel (next_gen g) (firstn i xs ++ skipn (i + 1) xs))
        as [[d r] g'].
      exists x. exact Hx.
  - destruct xs as [| x [| y xs]]; [congruence | | cbn in Hle; lia].
    exists x. reflexivity.
Qed.

Lemma shift_eq (w : world) (a : loc) (xs : list value) :
  heap w !! a = Some xs ->
  shift a w
  = match xs with
    | [] => (Ret VUndefined, w)
    | x :: xs' => (Ret x, mkWorld (this w) (<[a := xs']> (heap w)))
    end.
Proof.
  intros H. unfold shift.
  run (array_read_eq w a xs H).
  now destruct xs.
Qed.

Lemma pop_eq (w : world) (a : loc) (xs : list value) :
  heap w !! a = Some xs -> xs <> [] ->
  pop a w
  = (Ret (List.last xs VUndefined),
     mkWorld (this w) (<[a := removelast xs]> (heap w))).
Proof.
  intros H Hne. unfold pop.
  run (array_read_eq w a xs H).
  destruct xs; [congruence | reflexivity].
Qed.

(** ** The refilling loop of [permute] *)

Lemma refill_loop_spec (fuel : nat) :
  forall (w : world) (array oldArray : loc) (xs acc : list value),
    array <> oldArray ->
    heap w !! array = Some xs -> heap w !! oldArray = Some acc ->
    (length acc < fuel)%nat ->
    refill_loop fuel array oldArray w
    = (Ret tt,
       mkWorld (this w) (<[array := acc ++ xs]> (<[oldArray := []]> (heap w)))).
Proof.
  induction fuel as [| fuel IH]; intros w array oldArray xs acc Hne Harr Hold Hlen;
    [lia |].
  cbn [refill_loop].
  run (array_length_eq w oldArray acc Hold).
  destruct (Nat.ltb_spec 0 (length acc)) as [Hgt | Hle].
  - assert (Hacc : acc <> []) by (destruct acc; [cbn in Hgt; lia | discriminate]).
    run (pop_eq w oldArray acc Hold Hacc).
    set (v := List.last acc VUndefined).
    set (w1 := mkWorld (this w) (<[oldArray := removelast acc]> (heap w))).
    assert (Harr1 : heap w1 !! array = Some xs).
    { subst w1. cbn. rewrite lookup_insert_ne by congruence. exact Harr. }
    run (unshift_eq w1 array xs v Harr1).
    set (w2 := mkWorld (this w1) (<[array := v :: xs]> (heap w1))).
    rewrite (IH w2 array oldArray (v :: xs) (removelast acc)).
    + subst w2 w1. cbn [this heap]. do 2 f_equal.
      rewrite insert_pair_absorb. f_equal.
      rewrite (app_removelast_last VUndefined Hacc) at 2.
      rewrite <- app_assoc. reflexivity.
    + exact Hne.
    + subst w2. cbn. apply lookup_insert_eq.
    + subst w2 w1. cbn. rewrite lookup_insert_ne by exact Hne. apply lookup_insert_eq.
    + rewrite removelast_firstn_len, length_firstn. lia.
  - destruct acc; [| cbn in Hle; lia]. cbn [app ret].
    rewrite (insert_id (heap w) oldArray [] Hold), (insert_id (heap w) array xs Harr).
    now rewrite world_eta.
Qed.

(** ** [randperm] and [permute] on an array of the heap *)

Lemma fresh_lookup (h : gmap loc (list value)) : h !! fresh (dom h) = None.
Proof. apply not_elem_of_dom, is_fresh. Qed.

Lemma randperm_array (w : world) (a : loc) (xs : list value) :
  wf (this w) -> heap w !! a = Some xs ->
  exists l w',
    randperm (InArr a) w = (Ret l, w')
    /\ heap w !! l = None
    /\ heap w' !! l
       = Some ((draws (S (length xs)) (this w) xs).1.1
               ++ [shifted (draws (S (length xs)) (this w) xs).1.2])
    /\ this w' = (draws (S (length xs)) (this w) xs).2
    /\ forall b, is_Some (heap w !! b) -> heap w' !! b = heap w !! b.
Proof.
  intros Hwf Ha.
  set (l1 := fresh (dom (heap w))).
  set (w1 := mkWorld (this w) (<[l1 := []]> (heap w))).
  set (l2 := fresh (dom (heap w1))).
  set (w2 := mkWorld (this w1) (<[l2 := xs]> (heap w1))).
  assert (Hl1 : heap w !! l1 = None) by apply fresh_lookup.
  assert (Hl2 : heap w1 !! l2 = None) by apply fresh_lookup.
  assert (Hal1 : a <> l1) by congruence.
  assert (Hl21 : l2 <> l1).
  { intros E. rewrite E in Hl2. subst w1. cbn in Hl2.
    rewrite lookup_insert_eq in Hl2. discriminate. }
  assert (Hl2w : heap w !! l2 = None).
  { subst w1. cbn in Hl2. now rewrite lookup_insert_ne in Hl2 by congruence. }
  assert (Ha1 : heap w1 !! a = Some xs).
  { subst w1. cbn. now rewrite lookup_insert_ne by congruence. }
  destruct (draws (S (length xs)) (this w) xs) as [[d r] g'] eqn:Ed.
  cbn [fst snd].
  set (w3 := mkWorld g' (<[l1 := d]> (<[l2 := r]> (heap w2)))).
  assert (Hloop : draw_loop (S (length xs)) l2 l1 w2 = (Ret tt, w3)).
  { rewrite (draw_loop_spec (S (length xs)) w2 l2 l1 xs []).
    - change (this w2) with (this w). now rewrite Ed.
    - exact Hwf.
    - exact Hl21.
    - subst w2. cbn. apply lookup_insert_eq.
    - subst w2 w1. cbn. rewrite lookup_insert_ne by exact Hl21. apply lookup_insert_eq.
    - lia. }
  assert (H3 : heap w3 !! l2 = Some r).
  { subst w3. cbn. rewrite lookup_insert_ne by congruence. apply lookup_insert_eq. }
  set (w4 := match r with
             | [] => w3
             | _ :: r' => mkWorld (this w3) (<[l2 := r']> (heap w3))
             end).
  assert (Hshift : shift l2 w3 = (Ret (shifted r), w4)).
  { rewrite (shift_eq w3 l2 r H3). subst w4. now destruct r. }
  assert (H4this : this w4 = g') by (subst w4; now destruct r).
  assert (H4l1 : heap w4 !! l1 = Some d).
  { subst w4. destruct r; cbn; [| rewrite lookup_insert_ne by exact Hl21];
      apply lookup_insert_eq. }
  assert (H4frame : forall b, b <> l1 -> b <> l2 -> heap w4 !! b = heap w !! b).
  { intros b Hb1 Hb2. subst w4.
    destruct r; cbn; rewrite !lookup_insert_ne by congruence; reflexivity. }
  exists l1, (mkWorld (this w4) (<[l1 := d ++ [shifted r]]> (heap w4))).
  split; [| split; [| split; [| split]]].
  - unfold randperm.
    rewrite (bind_Ret (alloc []) _ w l1 w1 eq_refl).
    run (array_read_eq w1 a xs Ha1).
    rewrite (bind_Ret (alloc xs) _ w1 l2 w2 eq_refl).
    run Hloop.
    run Hshift.
    now run (push_eq w4 l1 d (shifted r) H4l1).
  - exact Hl1.
  - cbn. apply lookup_insert_eq.
  - exact H4this.
  - intros b [ys Hb]. cbn.
    assert (b <> l1) by congruence. assert (b <> l2) by congruence.
    rewrite lookup_insert_ne by congruence. now apply H4frame.
Qed.

Lemma permute_array (w : world) (a : loc) (xs : list value) :
  wf (this w) -> heap w !! a = Some xs ->
  exists w',
    permute a w = (Ret tt, w')
    /\ heap w' !! a
       = Some ((draws (S (length xs)) (this w) xs).1.1
               ++ (draws (S (length xs)) (this w) xs).1.2)
    /\ this w' = (draws (S (length xs)) (this w) xs).2.
Proof.
  intros Hwf Ha.
  set (l := fresh (dom (heap w))).
  set (w1 := mkWorld (this w) (<[l := []]> (heap w))).
  assert (Hl : heap w !! l = None) by apply fresh_lookup.
  assert (Hal : a <> l) by congruence.
  assert (Ha1 : heap w1 !! a = Some xs).
  { subst w1. cbn. now rewrite lookup_insert_ne by congruence. }
  assert (Hl1 : heap w1 !! l = Some []).
  { subst w1. cbn. apply lookup_insert_eq. }
  destruct (draws (S (length xs)) (this w) xs) as [[d r] g'] eqn:Ed.
  cbn [fst snd].
  set (w2 := mkWorld g' (<[l := d]> (<[a := r]> (heap w1)))).
  assert (Hloop : draw_loop (S (length xs)) a l w1 = (Ret tt, w2)).
  { rewrite (draw_loop_spec (S (length xs)) w1 a l xs [] Hwf Hal Ha1 Hl1 ltac:(lia)).
    change (this w1) with (this w). now rewrite Ed. }
  assert (H2l : heap w2 !! l = Some d).
  { subst w2. cbn. apply lookup_insert_eq. }
  assert (H2a : heap w2 !! a = Some r).
  { subst w2. cbn. rewrite lookup_insert_ne by congruence. apply lookup_insert_eq. }
  exists (mkWorld (this w2) (<[a := d ++ r]> (<[l := []]> (heap w2)))).
  split; [| split].
  - unfold permute.
    rewrite (bind_Ret (alloc []) _ w l w1 eq_refl).
    run (array_length_eq w1 a xs Ha1).
    run Hloop.
    run (array_length_eq w2 l d H2l).
    apply (refill_loop_spec (S (length d)) w2 a l r d Hal H2a H2l). lia.
  - cbn. apply lookup_insert_eq.
  - reflexivity.
Qed.

(** C9.  [randperm(array)] returns an array that was not on the heap before
    the call, hence distinct from the input, and leaves the input as it was:
    after the call the input holds the same list of elements (same length,
    same element at every index), as does every other array that existed
    before the call. *)
Theorem randperm_input_unmodified (w : world) (a : loc) (xs : list value) :
  wf (this w) -> heap w !! a = Some xs ->
  exists l w',
    randperm (InArr a) w = (Ret l, w')
    /\ heap w !! l = None
    /\ l <> a
    /\ is_Some (heap w' !! l)
    /\ heap w' !! a = Some xs
    /\ forall b, is_Some (heap w !! b) -> heap w' !! b = heap w !! b.
Proof.
  intros Hwf Ha.
  destruct (randperm_array w a xs Hwf Ha) as (l & w' & Hrun & Hfresh & Hres & _ & Hframe).
  exists l, w'. repeat split.
  - exact Hrun.
  - exact Hfresh.
  - congruence.
  - rewrite Hres. eexists. reflexivity.
  - rewrite (Hframe a) by (rewrite Ha; eexists; reflexivity). exact Ha.
  - exact Hframe.
Qed.

Lemma randperm_input_unmodified_witness :
  wf (this (one_array [VNum 10; VNum 20; VNum 30]))
  /\ heap (one_array [VNum 10; VNum 20; VNum 30]) !! 1%positive
     = Some [VNum 10; VNum 20; VNum 30]
  /\ exists l w',
       randperm (InArr 1%positive) (one_array [VNum 10; VNum 20; VNum 30]) = (Ret l, w')
       /\ l <> 1%positive
       /\ heap w' !! 1%positive = Some [VNum 10; VNum 20; VNum 30].
Proof.
  split; [exact default_wf |]. split; [reflexivity |].
  destruct (randperm_input_unmodified (one_array [VNum 10; VNum 20; VNum 30])
              1%positive [VNum 10; VNum 20; VNum 30] default_wf eq_refl)
    as (l & w' & Hrun & _ & Hne & _ & Hin & _).
  exists l, w'. split; [exact Hrun |]. split; [exact Hne | exact Hin].
Defined.

(** X20.  For a non-empty array, from the same generator state, [permute]
    leaves in the array the sequence that [randperm] returns for the same
    contents, and both leave the generator in the same state. *)
Lemma permute_randperm_nonempty (w1 w2 : world) (a1 a2 : loc) (xs : list value) :
  wf (this w1) -> this w1 = this w2 -> xs <> [] ->
  heap w1 !! a1 = Some xs -> heap w2 !! a2 = Some xs ->
  exists l w1' w2',
    randperm (InArr a1) w1 = (Ret l, w1')
    /\ permute a2 w2 = (Ret tt, w2')
    /\ heap w2' !! a2 = heap w1' !! l
    /\ is_Some (heap w1' !! l)
    /\ this w2' = this w1'.
Proof.
  intros Hwf Hthis Hne H1 H2.
  destruct (randperm_array w1 a1 xs Hwf H1) as (l & w1' & Hr & _ & Hres & Hg & _).
  assert (Hwf2 : wf (this w2)) by (rewrite <- Hthis; exact Hwf).
  destruct (permute_array w2 a2 xs Hwf2 H2) as (w2' & Hp & Hres2 & Hg2).
  rewrite <- Hthis in Hres2, Hg2.
  destruct (draws_rest (S (length xs)) (this w1) xs Hne ltac:(lia)) as [x Hx].
  rewrite Hx in Hres, Hres2.
  exists l, w1', w2'. repeat split.
  - exact Hr.
  - exact Hp.
  - now rewrite Hres, Hres2.
  - rewrite Hres. eexists. reflexivity.
  - now rewrite Hg, Hg2.
Qed.

(** C8 on the empty array: [permute] leaves it empty, while [randperm] of the
    same contents returns the one-element array [[undefined]]; the generator
    is untouched by both. *)
Theorem permute_randperm_empty :
  exists l w1' w2',
    randperm (InArr 1%positive) (one_array []) = (Ret l, w1')
    /\ permute 1%positive (one_array []) = (Ret tt, w2')
    /\ heap w1' !! l = Some [VUndefined]
    /\ heap w2' !! 1%positive = Some []
    /\ heap w2' !! 1%positive <> heap w1' !! l
    /\ this w1' = default_RNG /\ this w2' = default_RNG.
Proof.
  exists 2%positive, (snd (randperm (InArr 1%positive) (one_array []))),
    (snd (permute 1%positive (one_array []))).
  split; [vm_compute; reflexivity |].
  split; [vm_compute; reflexivity |].
  split; [vm_compute; reflexivity |].
  split; [vm_compute; reflexivity |].
  split; [vm_compute; discriminate |].
  split; vm_compute; reflexivity.
Qed.

(** C6 on the code: for the empty array and for the number 0, [randperm]
    returns an array of length one that holds [undefined]; [permute] leaves
    the empty array empty.  None of the three throws or draws: the generator
    is the one before the call. *)
Theorem empty_input :
  (exists l w',
     randperm (InArr 1%positive) (one_array []) = (Ret l, w')
     /\ heap w' !! l = Some [VUndefined] /\ this w' = default_RNG)
  /\ (exists l w',
        randperm (InNum (Num 0)) default_world = (Ret l, w')
        /\ heap w' !! l = Some [VUndefined] /\ this w' = default_RNG)
  /\ (exists w',
        permute 1%positive (one_array []) = (Ret tt, w')
        /\ heap w' !! 1%positive = Some [] /\ this w' = default_RNG).
Proof.
  split; [| split].
  - exists 2%positive, (snd (randperm (InArr 1%positive) (one_array []))).
    repeat split; vm_compute; reflexivity.
  - exists 1%positive, (snd (randperm (InNum (Num 0)) default_world)).
    repeat split; vm_compute; reflexivity.
  - exists (snd (permute 1%positive (one_array []))).
    repeat split; vm_compute; reflexivity.
Qed.

(** * Further properties of the code *)

(** ** [#pad_or_truncate] and the failure modes of [call] *)

Lemma pos_size_bounds (q : positive) :
  2 ^ Z.of_nat (Pos.size_nat q) <= 2 * Zpos q < 2 * 2 ^ Z.of_nat (Pos.size_nat q).
Proof.
  induction q as [q IH | q IH |]; cbn [Pos.size_nat].
  - rewrite Nat2Z.inj_succ, Z.pow_succ_r by lia. lia.
  - rewrite Nat2Z.inj_succ, Z.pow_succ_r by lia. lia.
  - change (2 ^ Z.of_nat 1) with 2. lia.
Qed.

Lemma pos_size_le (q : positive) (n : nat) :
  (Pos.size_nat q <= n)%nat <-> Zpos q < 2 ^ Z.of_nat n.
Proof.
  pose proof (pos_size_bounds q) as [Hlo Hhi]. split; intros H.
  - assert (2 ^ Z.of_nat (Pos.size_nat q) <= 2 ^ Z.of_nat n)
      by (apply Z.pow_le_mono_r; lia).
    lia.
  - assert (Hlt : 2 ^ Z.of_nat (Pos.size_nat q) < 2 ^ Z.of_nat (S n)).
    { rewrite (Nat2Z.inj_succ n), Z.pow_succ_r by lia. lia. }
    apply Z.pow_lt_mono_r_iff in Hlt; lia.
Qed.

(** Keeping the last [n] characters of a binary text keeps its value
    modulo [2^n]. *)
Lemma parse_binary_skipn (s : list ascii) (v : Z) (n : nat) :
  parse_binary 0 s = Some v -> (n <= length s)%nat ->
  parse_binary 0 (skipn (length s - n) s) = Some (v mod 2 ^ Z.of_nat n).
Proof.
  intros Hp Hn. set (k := (length s - n)%nat).
  assert (Hlen : length (skipn k s) = n) by (rewrite length_skipn; lia).
  rewrite <- (firstn_skipn k s) in Hp. rewrite parse_binary_app in Hp.
  destruct (parse_binary 0 (firstn k s)) as [hi |]; [| discriminate].
  pose proof (parse_binary_acc _ _ 0 _ Hp) as Hlo.
  pose proof (parse_binary_range _ _ Hlo) as Hlr.
  rewrite Hlen in Hlo, Hlr. rewrite Hlo. f_equal.
  apply (Z.mod_unique_pos _ _ hi); lia.
Qed.

(** X1.  Whatever the BigInt, the text that [#pad_or_truncate] builds after
    the ["0b"] prefix has exactly [bits] characters (for a positive [bits]). *)
Theorem pad_or_truncate_length (x : Z) (bits : nat) :
  (0 < bits)%nat -> length (pad_or_truncate x bits) = bits.
Proof.
  intros Hb. unfold pad_or_truncate.
  destruct (Nat.leb_spec (length (toString2 x)) bits) as [Hl | Hl].
  - rewrite length_app, repeat_length. lia.
  - unfold slice_last. destruct bits as [| b]; [lia |].
    rewrite length_skipn. lia.
Qed.

Lemma pad_or_truncate_length_witness :
  length (pad_or_truncate (-5) 64) = 64%nat.
Proof. apply (pad_or_truncate_length (-5) 64). lia. Defined.

(** The padded text of a negative BigInt above [-2^63] keeps its sign. *)
Lemma pad_small_negative_text (q : positive) :
  Zpos q < 2 ^ 63 ->
  pad_or_truncate (Zneg q) 64
  = repeat c0 (63 - Pos.size_nat q) ++ cminus :: pos_to_binary q [].
Proof.
  intros Hq. apply (pos_size_le q 63) in Hq.
  unfold pad_or_truncate. cbn [toString2 length].
  rewrite pos_to_binary_length. cbn [length]. rewrite Nat.add_0_r.
  destruct (Nat.leb_spec (S (Pos.size_nat q)) 64) as [_ | Hl]; [| lia].
  reflexivity.
Qed.

(** From [-2^63] down, the slice drops the sign and keeps 64 digits. *)
Lemma pad_large_negative_text (q : positive) :
  2 ^ 63 <= Zpos q ->
  pad_or_truncate (Zneg q) 64
  = skipn (length (pos_to_binary q []) - 64) (pos_to_binary q [])
  /\ (64 <= length (pos_to_binary q []))%nat.
Proof.
  intros Hq.
  assert (Hs : ~ (Pos.size_nat q <= 63)%nat).
  { intros H. apply (pos_size_le q 63) in H. change (Z.of_nat 63) with 63 in H. lia. }
  unfold pad_or_truncate. cbn [toString2 length].
  rewrite pos_to_binary_length. cbn [length]. rewrite Nat.add_0_r.
  destruct (Nat.leb_spec (S (Pos.size_nat q)) 64) as [Hl | _]; [lia |].
  unfold slice_last. cbn [length]. rewrite pos_to_binary_length.
  cbn [length]. rewrite Nat.add_0_r.
  replace (S (Pos.size_nat q) - 64)%nat with (S (Pos.size_nat q - 64)) by lia.
  split; [reflexivity | lia].
Qed.

Lemma BigInt_0b_minus (k : nat) (s : list ascii) (w : world) :
  BigInt_0b (repeat c0 k ++ cminus :: s) w = (Throw SyntaxError, w).
Proof.
  unfold BigInt_0b. rewrite parse_binary_zeros. cbn [parse_binary].
  change (digit cminus) with (@None Z).
  now destruct (repeat c0 k ++ cminus :: s).
Qed.

(** X2.  [BigInt(#pad_or_truncate(x))] for a negative BigInt [x]: above
    [-2^63] the minus sign stays in the padded text and [BigInt] throws a
    SyntaxError; from [-2^63] down the sign is sliced off and the result is
    [(-x) mod 2^64], which is [x mod 2^64] exactly when [x] is a multiple of
    [2^63]. *)
Theorem pad_or_truncate_negative (x : Z) (w : world) :
  x < 0 ->
  BigInt_0b (pad_or_truncate x 64) w
  = (if - 2 ^ 63 <? x then (Throw SyntaxError, w) else (Ret ((- x) mod 2 ^ 64), w))
  /\ ((- x) mod 2 ^ 64 = x mod 2 ^ 64 <-> x mod 2 ^ 63 = 0).
Proof.
  intros Hx. split.
  - destruct x as [| q | q]; try lia.
    destruct (Z.ltb_spec (- 2 ^ 63) (Z.neg q)) as [Hsmall | Hlarge].
    + rewrite pad_small_negative_text by lia. apply BigInt_0b_minus.
    + destruct (pad_large_negative_text q ltac:(lia)) as [-> Hlen].
      change (- Z.neg q) with (Z.pos q).
      pose proof (parse_binary_skipn (pos_to_binary q []) (Zpos q) 64
                    (parse_toString2 (Zpos q) ltac:(lia)) Hlen) as Hk.
      change (Z.of_nat 64) with 64 in Hk.
      apply BigInt_0b_parse; [| exact Hk].
      intros E. apply (f_equal (@length ascii)) in E.
      rewrite length_skipn in E. cbn in E. lia.
  - split; intros H.
    + assert (Hd : (2 ^ 64 | x - - x)).
      { apply Z.mod_divide; [lia |]. rewrite Zminus_mod, H, Z.sub_diag. reflexivity. }
      destruct Hd as [k Hk]. apply Z.mod_divide; [lia |]. exists k. lia.
    + apply Z.mod_divide in H; [| lia]. destruct H as [k Hk].
      replace (- x) with (x + (- k) * 2 ^ 64) by lia.
      apply Z.mod_add. lia.
Qed.

(** [BigInt] of the padded text of a negative BigInt above [-2^63]. *)
Lemma BigInt_small_negative (x : Z) (w : world) :
  - 2 ^ 63 < x < 0 ->
  BigInt_0b (pad_or_truncate x 64) w = (Throw SyntaxError, w).
Proof.
  intros Hx. destruct x as [| q | q]; try lia.
  rewrite pad_small_negative_text by lia. apply BigInt_0b_minus.
Qed.

Lemma pad_or_truncate_negative_witness :
  BigInt_0b (pad_or_truncate (-5) 64) default_world = (Throw SyntaxError, default_world)
  /\ BigInt_0b (pad_or_truncate (- 2 ^ 64 - 5) 64) default_world = (Ret 5, default_world).
Proof.
  split.
  - rewrite (proj1 (pad_or_truncate_negative (-5) default_world ltac:(lia))).
    reflexivity.
  - rewrite (proj1 (pad_or_truncate_negative (- 2 ^ 64 - 5) default_world ltac:(lia))).
    reflexivity.
Defined.

(** X3.  The constructor checks nothing, and [call] needs less than 64-bit
    fields: whenever the state is non-negative and
    [state * multiplier + increment] is non-negative, [call] returns a value
    in [[0, 2^32)] and leaves a state in [[0, 2^64)], namely that sum modulo
    [2^64]; multiplier, increment and the heap stay. *)
Theorem call_nonnegative (w : world) :
  0 <= state (this w) ->
  0 <= state (this w) * multiplier (this w) + increment (this w) ->
  exists u,
    call w = (Ret u, set_state (advance (this w) (state (this w))) w)
    /\ 0 <= u < 2 ^ 32
    /\ u64 (advance (this w) (state (this w))).
Proof.
  intros _ H. exists (output (state (this w))). split; [| split].
  - apply call_eq, H.
  - apply output_range.
  - apply advance_u64.
Qed.

Lemma call_nonnegative_witness :
  exists u, fst (call (set_state (2 ^ 64 + 7) default_world)) = Ret u /\ 0 <= u < 2 ^ 32.
Proof.
  destruct (call_nonnegative (set_state (2 ^ 64 + 7) default_world)) as (u & Hc & Hu & _).
  - vm_compute. discriminate.
  - vm_compute. discriminate.
  - exists u. rewrite Hc. split; [reflexivity | exact Hu].
Defined.

(** X4.  When [state * multiplier + increment] is negative but above [-2^63],
    [call] throws a SyntaxError (from [BigInt] of the padded text) before it
    assigns: the generator and the heap are as before the call. *)
Theorem call_negative_throws (w : world) :
  - 2 ^ 63 < state (this w) * multiplier (this w) + increment (this w) < 0 ->
  call w = (Throw SyntaxError, w).
Proof.
  intros [Hlo Hhi]. unfold call.
  rewrite (bind_Ret get_this _ w (this w) w eq_refl).
  apply bind_Throw.
  apply BigInt_small_negative. lia.
Qed.

Lemma call_negative_throws_witness :
  call (set_state (-1) default_world) = (Throw SyntaxError, set_state (-1) default_world).
Proof. apply (call_negative_throws (set_state (-1) default_world)). cbn. lia. Defined.

(** ** The overloads of [randint] and [rand] *)

(** X5.  With one non-zero bound [n] of magnitude at most [2^53],
    [randint(n)] draws one raw output [u] and returns [u mod n], in [[0, n)],
    for a positive [n], and [u mod (-n) + n], in [[n, 0)], for a negative
    [n]. *)
Theorem randint_single_bound (w : world) (n : Z) :
  wf (this w) -> n <> 0 -> int53 n ->
  exists u w' v,
    call w = (Ret u, w')
    /\ randint (Some (Num n)) None w = (Ret (Num v), w')
    /\ (0 < n -> v = u mod n /\ 0 <= v < n)
    /\ (n < 0 -> v = u mod (- n) + n /\ n <= v < 0).
Proof.
  intros Hwf Hn Hsafe. pose proof (output_range (state (this w))) as Hu.
  set (u := output (state (this w))) in *.
  exists u, (set_state (advance (this w) (state (this w))) w),
    (if 0 <? n then u mod n else u mod (- n) + n).
  split; [apply call_returns, Hwf |]. split; [| split].
  - unfold randint, truthyZ. cbn [to_number js_gt0].
    destruct (Z.eqb_spec n 0) as [E | _]; [lia |]. cbn [negb].
    destruct (Z.ltb_spec 0 n) as [Hpos | Hneg];
      unfold bind; rewrite call_returns by exact Hwf; fold u; unfold ret.
    + rewrite js_rem_pos by lia. reflexivity.
    + cbn [js_neg]. rewrite js_rem_pos by lia.
      pose proof (Z.mod_pos_bound u (- n) ltac:(lia)).
      rewrite js_add_exact by (unfold int53 in *; lia). reflexivity.
  - intros Hpos. destruct (Z.ltb_spec 0 n) as [_ | E]; [| lia].
    split; [reflexivity | apply Z.mod_pos_bound; lia].
  - intros Hneg. destruct (Z.ltb_spec 0 n) as [E | _]; [lia |].
    split; [reflexivity |].
    pose proof (Z.mod_pos_bound u (- n) ltac:(lia)). lia.
Qed.

Lemma randint_single_bound_witness :
  fst (randint (Some (Num (-10))) None default_world) = Ret (Num (-8)).
Proof.
  destruct (randint_single_bound default_world (-10) default_wf ltac:(lia)
              ltac:(unfold int53; lia))
    as (u & w' & v & Hc & Hr & _ & Hneg).
  rewrite Hr. destruct (Hneg ltac:(lia)) as [-> _].
  vm_compute in Hc. injection Hc as <- _. reflexivity.
Defined.

(** X6.  Equal non-zero bounds are not rejected: [randint(n, n)] divides by
    zero in [%], returns [NaN] and still consumes one raw output. *)
Theorem randint_equal_bounds (w : world) (n : Z) :
  wf (this w) -> n <> 0 ->
  randint (Some (Num n)) (Some (Num n)) w
  = (Ret NaN, set_state (advance (this w) (state (this w))) w).
Proof.
  intros Hwf Hn. unfold randint, truthyZ.
  destruct (Z.eqb_spec n 0) as [E | _]; [lia |]. cbn [negb].
  unfold bind. rewrite call_returns by exact Hwf.
  unfold ret. cbn [to_number].
  assert (Hsub : js_sub (Num n) (Num n) = Num 0).
  { unfold js_sub, lift2. rewrite Z.sub_diag. reflexivity. }
  rewrite Hsub. reflexivity.
Qed.

Lemma randint_equal_bounds_witness :
  fst (randint (Some (Num 5)) (Some (Num 5)) default_world) = Ret NaN.
Proof. rewrite (randint_equal_bounds default_world 5 default_wf); [reflexivity | lia]. Defined.

(** X7.  Reversed bounds are not rejected either: for [max < min], both of
    magnitude at most [2^52] and [max] non-zero, [randint(min, max)] returns
    [u mod (min - max) + min], which lies in [[min, min + (min - max))], at
    or above both bounds. *)
Theorem randint_reversed_bounds (w : world) (min max : Z) :
  wf (this w) -> max < min -> max <> 0 -> - 2 ^ 52 <= max -> min <= 2 ^ 52 ->
  exists u w',
    call w = (Ret u, w')
    /\ randint (Some (Num min)) (Some (Num max)) w
       = (Ret (Num (u mod (min - max) + min)), w')
    /\ min <= u mod (min - max) + min < min + (min - max).
Proof.
  intros Hwf Hlt Hmax Hlo Hhi. pose proof (output_range (state (this w))) as Hu.
  pose proof (Z.mod_pos_bound (output (state (this w))) (min - max) ltac:(lia)) as Hv.
  pose proof (Z.mod_le (output (state (this w))) (min - max) ltac:(lia) ltac:(lia)) as Hle.
  exists (output (state (this w))), (set_state (advance (this w) (state (this w))) w).
  split; [apply call_returns, Hwf |]. split; [| lia].
  unfold randint, truthyZ.
  destruct (Z.eqb_spec max 0) as [E | _]; [lia |]. cbn [negb].
  unfold bind. rewrite call_returns by exact Hwf.
  unfold ret. cbn [to_number].
  assert (Hsub : js_sub (Num max) (Num min) = Num (- (min - max))).
  { unfold js_sub, lift2. rewrite round64_exact by (unfold int53; lia).
    f_equal. ring. }
  assert (Hrem : js_rem (Num (output (state (this w)))) (Num (- (min - max)))
                 = Num (output (state (this w)) mod (min - max))).
  { unfold js_rem. destruct (Z.eqb_spec (- (min - max)) 0) as [E | _]; [lia |].
    f_equal. rewrite Z.rem_opp_r by lia. apply Z.rem_mod_nonneg; lia. }
  rewrite Hsub, Hrem.
  rewrite js_add_exact by (unfold int53; lia). reflexivity.
Qed.

Lemma randint_reversed_bounds_witness :
  fst (randint (Some (Num 4)) (Some (Num (-3))) default_world) = Ret (Num 4).
Proof.
  destruct (randint_reversed_bounds default_world 4 (-3) default_wf
              ltac:(lia) ltac:(lia) ltac:(lia) ltac:(lia))
    as (u & w' & Hc & Hr & _).
  rewrite Hr. vm_compute in Hc. injection Hc as <- _. reflexivity.
Defined.

Lemma randint_state (w : world) (min max : arg Z) :
  wf (this w) ->
  exists v, randint min max w
            = (Ret v, set_state (advance (this w) (state (this w))) w).
Proof.
  intros Hwf. unfold randint.
  destruct (truthyZ max); [| destruct (truthyZ min); [destruct (js_gt0 _) |]];
    unfold bind; rewrite call_returns by exact Hwf; eexists; reflexivity.
Qed.

Lemma rand_state (w : world) (min max : arg Q) :
  wf (this w) ->
  exists v, rand min max w
            = (Ret v, set_state (advance (this w) (state (this w))) w).
Proof.
  intros Hwf. unfold rand.
  destruct (truthyQ max); [| destruct (truthyQ min)];
    unfold bind; rewrite call_returns by exact Hwf; eexists; reflexivity.
Qed.

(** X8.  Whatever arguments they get (omitted, zero, [NaN], reversed),
    [randint] and [rand] never throw and consume exactly one raw output: the
    world after is the world after one [call], and the generator is again one
    with 64-bit fields. *)
Theorem randint_rand_one_draw (w : world) (imin imax : arg Z) (fmin fmax : arg Q) :
  wf (this w) ->
  exists u w',
    call w = (Ret u, w')
    /\ wf (this w')
    /\ (exists v, randint imin imax w = (Ret v, w'))
    /\ (exists v, rand fmin fmax w = (Ret v, w')).
Proof.
  intros Hwf.
  exists (output (state (this w))), (set_state (advance (this w) (state (this w))) w).
  split; [apply call_returns, Hwf |]. split; [| split].
  - apply wf_set_state; [exact Hwf | apply advance_u64].
  - apply randint_state, Hwf.
  - apply rand_state, Hwf.
Qed.

Lemma randint_rand_one_draw_witness :
  exists v w', randint (Some NaN) None default_world = (Ret v, w')
               /\ snd (call default_world) = w'.
Proof.
  destruct (randint_rand_one_draw default_world (Some NaN) None None None default_wf)
    as (u & w' & Hc & _ & [v Hr] & _).
  exists v, w'. split; [exact Hr | now rewrite Hc].
Defined.

Lemma inject_Z_nonzero (b : Z) : b <> 0 -> ~ (inject_Z b == 0)%Q.
Proof. intros Hb E. unfold Qeq, inject_Z in E. cbn in E. lia. Qed.

(** X9.  With one non-zero integer bound [b] of magnitude at most [2^21],
    [rand(b)] returns [u * 2^-32 * b] for the raw output [u] of one [call]: a
    value in [[0, b)] for a positive [b] and in [(b, 0]] for a negative [b].
    Without bounds [rand()] returns [u * 2^-32], in [[0, 1)].  (For these
    arguments the products of lines 64 and 66 are exact in binary64:
    [u * b] has fewer than 54 bits.) *)
Theorem rand_single_bound (w : world) (b : Z) :
  wf (this w) -> b <> 0 -> - 2 ^ 21 <= b <= 2 ^ 21 ->
  exists u w',
    call w = (Ret u, w')
    /\ rand (Some (Num (inject_Z b))) None w
       = (Ret (Num (inject_Z u * two_m32 * inject_Z b)%Q), w')
    /\ rand None None w = (Ret (Num (inject_Z u * two_m32)%Q), w')
    /\ (0 <= inject_Z u * two_m32 /\ inject_Z u * two_m32 < 1)%Q
    /\ (0 < b ->
        (0 <= inject_Z u * two_m32 * inject_Z b
         /\ inject_Z u * two_m32 * inject_Z b < inject_Z b)%Q)
    /\ (b < 0 ->
        (inject_Z b < inject_Z u * two_m32 * inject_Z b
         /\ inject_Z u * two_m32 * inject_Z b <= 0)%Q).
Proof.
  intros Hwf Hb _.
  exists (output (state (this w))), (set_state (advance (this w) (state (this w))) w).
  destruct (base_range _ (output_range (state (this w)))) as [H0 H1].
  split; [apply call_returns, Hwf |]. split; [| split; [| split; [| split]]].
  - unfold rand. change (truthyQ None) with false. cbv iota.
    rewrite (truthyQ_nonzero _ (inject_Z_nonzero b Hb)). unfold bind.
    rewrite call_returns by exact Hwf. reflexivity.
  - unfold rand. change (truthyQ None) with false. cbv iota. unfold bind.
    rewrite call_returns by exact Hwf. reflexivity.
  - split; assumption.
  - intros Hpos. assert (0 < inject_Z b)%Q by (unfold Qlt, inject_Z; cbn; lia).
    split; nra.
  - intros Hneg. assert (inject_Z b < 0)%Q by (unfold Qlt, inject_Z; cbn; lia).
    split; nra.
Qed.

Lemma rand_single_bound_witness :
  exists v w', rand (Some (Num (inject_Z 3))) None default_world = (Ret (Num v), w')
               /\ (0 <= v /\ v < inject_Z 3)%Q.
Proof.
  destruct (rand_single_bound default_world 3 default_wf ltac:(lia) ltac:(lia))
    as (u & w' & _ & Hr & _ & _ & Hpos & _).
  exists (inject_Z u * two_m32 * inject_Z 3)%Q, w'. split; [exact Hr |].
  apply Hpos. lia.
Defined.

(** X19.  For integers [min < max] of magnitude at most [2^20], [max]
    non-zero, [rand(min, max)] returns [u * 2^-32 * (max - min) + min] for the
    raw output [u] of one [call], a value in [[min, max)].  (For these
    arguments every operation of line 62 is exact in binary64: the
    difference is an integer below [2^22], and the product and the sum are
    multiples of [2^-32] below [2^21] in magnitude.) *)
Theorem rand_integer_bounds (w : world) (min max : Z) :
  wf (this w) -> max <> 0 -> min < max ->
  - 2 ^ 20 <= min -> max <= 2 ^ 20 ->
  exists u w',
    call w = (Ret u, w')
    /\ rand (Some (Num (inject_Z min))) (Some (Num (inject_Z max))) w
       = (Ret (Num (inject_Z u * two_m32 * (inject_Z max - inject_Z min)
                    + inject_Z min)%Q), w')
    /\ (inject_Z min
        <= inject_Z u * two_m32 * (inject_Z max - inject_Z min) + inject_Z min)%Q
    /\ (inject_Z u * two_m32 * (inject_Z max - inject_Z min) + inject_Z min
        < inject_Z max)%Q.
Proof.
  intros Hwf Hmax Hlt _ _.
  apply (rand_two_bounds w (inject_Z min) (inject_Z max) Hwf).
  - apply inject_Z_nonzero, Hmax.
  - unfold Qlt, inject_Z. cbn. lia.
Qed.

Lemma rand_integer_bounds_witness :
  exists v w', rand (Some (Num (inject_Z (-5)))) (Some (Num (inject_Z 2))) default_world
               = (Ret (Num v), w')
               /\ (inject_Z (-5) <= v /\ v < inject_Z 2)%Q.
Proof.
  destruct (rand_integer_bounds default_world (-5) 2 default_wf
              ltac:(lia) ltac:(lia) ltac:(lia) ltac:(lia))
    as (u & w' & _ & Hr & Hlo & Hhi).
  exists (inject_Z u * two_m32 * (inject_Z 2 - inject_Z (-5)) + inject_Z (-5))%Q, w'.
  split; [exact Hr | split; [exact Hlo | exact Hhi]].
Defined.

(** ** [#rotr32] as a rotation *)





(** ** What the drawing loop does *)

Lemma skipn_cons_split (i : nat) (xs : list value) (y : value) (t : list value) :
  skipn i xs = y :: t ->
  skipn (i + 1) xs = t /\ xs = firstn i xs ++ y :: t.
Proof.
  intros H. split.
  - rewrite Nat.add_comm, <- skipn_skipn, H. reflexivity.
  - rewrite <- H. symmetry. apply firstn_skipn.
Qed.

(** The elements drawn and the rest are the source, rearranged. *)
Lemma draws_perm (fuel : nat) :
  forall (g : RNG) (xs : list value),
    Permutation ((draws fuel g xs).1.1 ++ (draws fuel g xs).1.2) xs.
Proof.
  induction fuel as [| fuel IH]; intros g xs; [reflexivity |].
  cbn [draws].
  destruct (Nat.ltb_spec 1 (length xs)) as [Hgt | Hle]; [| reflexivity].
  set (i := Z.to_nat (output (state g) mod Z.of_nat (length xs))).
  assert (Hi : (i < length xs)%nat).
  { subst i. pose proof (Z.mod_pos_bound (output (state g)) (Z.of_nat (length xs))).
    lia. }
  destruct (skipn i xs) as [| y t] eqn:Hs.
  { apply (f_equal (@length value)) in Hs. rewrite length_skipn in Hs. cbn in Hs. lia. }
  destruct (skipn_cons_split i xs y t Hs) as [Ht Hxs].
  rewrite Ht. specialize (IH (next_gen g) (firstn i xs ++ t)).
  destruct (draws fuel (next_gen g) (firstn i xs ++ t)) as [[d r] g'].
  cbn [fst snd firstn index nth app] in *.
  rewrite Hxs at 1. now apply Permutation_cons_app.
Qed.

(** The loop advances the generator once per element but the last. *)
Lemma draws_gen (fuel : nat) :
  forall (g : RNG) (xs : list value),
    (length xs < fuel)%nat ->
    (draws fuel g xs).2 = Nat.iter (length xs - 1) next_gen g.
Proof.
  induction fuel as [| fuel IH]; intros g xs Hlen; [lia |].
  cbn [draws].
  destruct (Nat.ltb_spec 1 (length xs)) as [Hgt | Hle].
  - set (i := Z.to_nat (output (state g) mod Z.of_nat (length xs))).
    assert (Hi : (i < length xs)%nat).
    { subst i. pose proof (Z.mod_pos_bound (output (state g)) (Z.of_nat (length xs))).
      lia. }
    assert (Hl : length (firstn i xs ++ skipn (i + 1) xs) = (length xs - 1)%nat).
    { rewrite length_app, length_firstn, length_skipn. lia. }
    specialize (IH (next_gen g) (firstn i xs ++ skipn (i + 1) xs) ltac:(lia)).
    destruct (draws fuel (next_gen g) (firstn i xs ++ skipn (i + 1) xs)) as [[d r] g'].
    cbn [fst snd] in *. rewrite IH, Hl.
    set (n := (length xs - 1 - 1)%nat).
    assert (E : (length xs - 1)%nat = S n) by lia.
    rewrite E. symmetry. apply Nat.iter_succ_r.
  - replace (length xs - 1)%nat with 0%nat by lia. reflexivity.
Qed.

Lemma iter_next_gen_wf (n : nat) (g : RNG) : wf g -> wf (Nat.iter n next_gen g).
Proof.
  intros H. induction n as [| n IH]; [exact H |].
  cbn [Nat.iter]. apply next_gen_wf, IH.
Qed.

(** ** Permutations *)

Lemma randperm_contents (w : world) (array : perm_input) (xs : list value) :
  wf (this w) ->
  (let w1 := mkWorld (this w) (<[fresh (dom (heap w)) := []]> (heap w)) in
   match array with
   | InNum n => iota n
   | InArr a => array_read a
   end w1 = (Ret xs, w1)) ->
  exists l w',
    randperm array w = (Ret l, w')
    /\ heap w !! l = None
    /\ heap w' !! l
       = Some ((draws (S (length xs)) (this w) xs).1.1
               ++ [shifted (draws (S (length xs)) (this w) xs).1.2])
    /\ this w' = (draws (S (length xs)) (this w) xs).2
    /\ forall b, is_Some (heap w !! b) -> heap w' !! b = heap w !! b.
Proof.
  intros Hwf Hcontents.
  set (l1 := fresh (dom (heap w))) in *.
  set (w1 := mkWorld (this w) (<[l1 := []]> (heap w))) in *.
  cbv zeta in Hcontents.
  set (l2 := fresh (dom (heap w1))).
  set (w2 := mkWorld (this w1) (<[l2 := xs]> (heap w1))).
  assert (Hl1 : heap w !! l1 = None) by apply fresh_lookup.
  assert (Hl2 : heap w1 !! l2 = None) by apply fresh_lookup.
  assert (Hl21 : l2 <> l1).
  { intros E. rewrite E in Hl2. subst w1. cbn in Hl2.
    rewrite lookup_insert_eq in Hl2. discriminate. }
  assert (Hl2w : heap w !! l2 = None).
  { subst w1. cbn in Hl2. now rewrite lookup_insert_ne in Hl2 by congruence. }
  destruct (draws (S (length xs)) (this w) xs) as [[d r] g'] eqn:Ed.
  cbn [fst snd].
  set (w3 := mkWorld g' (<[l1 := d]> (<[l2 := r]> (heap w2)))).
  assert (Hloop : draw_loop (S (length xs)) l2 l1 w2 = (Ret tt, w3)).
  { rewrite (draw_loop_spec (S (length xs)) w2 l2 l1 xs []).
    - change (this w2) with (this w). now rewrite Ed.
    - exact Hwf.
    - exact Hl21.
    - subst w2. cbn. apply lookup_insert_eq.
    - subst w2 w1. cbn. rewrite lookup_insert_ne by exact Hl21. apply lookup_insert_eq.
    - lia. }
  assert (H3 : heap w3 !! l2 = Some r).
  { subst w3. cbn. rewrite lookup_insert_ne by congruence. apply lookup_insert_eq. }
  set (w4 := match r with
             | [] => w3
             | _ :: r' => mkWorld (this w3) (<[l2 := r']> (heap w3))
             end).
  assert (Hshift : shift l2 w3 = (Ret (shifted r), w4)).
  { rewrite (shift_eq w3 l2 r H3). subst w4. now destruct r. }
  assert (H4this : this w4 = g') by (subst w4; now destruct r).
  assert (H4l1 : heap w4 !! l1 = Some d).
  { subst w4. destruct r; cbn; [| rewrite lookup_insert_ne by exact Hl21];
      apply lookup_insert_eq. }
  assert (H4frame : forall b, b <> l1 -> b <> l2 -> heap w4 !! b = heap w !! b).
  { intros b Hb1 Hb2. subst w4.
    destruct r; cbn; rewrite !lookup_insert_ne by congruence; reflexivity. }
  exists l1, (mkWorld (this w4) (<[l1 := d ++ [shifted r]]> (heap w4))).
  split; [| split; [| split; [| split]]].
  - unfold randperm.
    rewrite (bind_Ret (alloc []) _ w l1 w1 eq_refl).
    run Hcontents.
    rewrite (bind_Ret (alloc xs) _ w1 l2 w2 eq_refl).
    run Hloop.
    run Hshift.
    now run (push_eq w4 l1 d (shifted r) H4l1).
  - exact Hl1.
  - cbn. apply lookup_insert_eq.
  - exact H4this.
  - intros b [ys Hb]. cbn.
    assert (b <> l1) by congruence. assert (b <> l2) by congruence.
    rewrite lookup_insert_ne by congruence. now apply H4frame.
Qed.

Lemma randperm_array_contents (w : world) (a : loc) (xs : list value) :
  heap w !! a = Some xs ->
  let w1 := mkWorld (this w) (<[fresh (dom (heap w)) := []]> (heap w)) in
  array_read a w1 = (Ret xs, w1).
Proof.
  intros Ha w1. apply array_read_eq. subst w1. cbn.
  rewrite lookup_insert_ne; [exact Ha |].
  intros E. rewrite <- E, fresh_lookup in Ha. discriminate.
Qed.

Lemma permute_run (w : world) (a : loc) (xs : list value) :
  wf (this w) -> heap w !! a = Some xs ->
  exists w',
    permute a w = (Ret tt, w')
    /\ heap w' !! a
       = Some ((draws (S (length xs)) (this w) xs).1.1
               ++ (draws (S (length xs)) (this w) xs).1.2)
    /\ this w' = (draws (S (length xs)) (this w) xs).2
    /\ forall b, b <> a -> is_Some (heap w !! b) -> heap w' !! b = heap w !! b.
Proof.
  intros Hwf Ha.
  set (l := fresh (dom (heap w))).
  set (w1 := mkWorld (this w) (<[l := []]> (heap w))).
  assert (Hl : heap w !! l = None) by apply fresh_lookup.
  assert (Hal : a <> l) by congruence.
  assert (Ha1 : heap w1 !! a = Some xs).
  { subst w1. cbn. now rewrite lookup_insert_ne by congruence. }
  assert (Hl1 : heap w1 !! l = Some []).
  { subst w1. cbn. apply lookup_insert_eq. }
  destruct (draws (S (length xs)) (this w) xs) as [[d r] g'] eqn:Ed.
  cbn [fst snd].
  set (w2 := mkWorld g' (<[l := d]> (<[a := r]> (heap w1)))).
  assert (Hloop : draw_loop (S (length xs)) a l w1 = (Ret tt, w2)).
  { rewrite (draw_loop_spec (S (length xs)) w1 a l xs [] Hwf Hal Ha1 Hl1 ltac:(lia)).
    change (this w1) with (this w). now rewrite Ed. }
  assert (H2l : heap w2 !! l = Some d).
  { subst w2. cbn. apply lookup_insert_eq. }
  assert (H2a : heap w2 !! a = Some r).
  { subst w2. cbn. rewrite lookup_insert_ne by congruence. apply lookup_insert_eq. }
  exists (mkWorld (this w2) (<[a := d ++ r]> (<[l := []]> (heap w2)))).
  split; [| split; [| split]].
  - unfold permute.
    rewrite (bind_Ret (alloc []) _ w l w1 eq_refl).
    run (array_length_eq w1 a xs Ha1).
    run Hloop.
    run (array_length_eq w2 l d H2l).
    apply (refill_loop_spec (S (length d)) w2 a l r d Hal H2a H2l). lia.
  - cbn. apply lookup_insert_eq.
  - reflexivity.
  - intros b Hba [ys Hb]. assert (b <> l) by congruence.
    subst w2 w1. cbn. rewrite !lookup_insert_ne by congruence. reflexivity.
Qed.

(** X11.  For a non-empty array, [randperm] returns an array holding a
    permutation of the input's elements (same elements with the same
    multiplicities, hence the same length). *)
Theorem randperm_permutation (w : world) (a : loc) (xs : list value) :
  wf (this w) -> heap w !! a = Some xs -> xs <> [] ->
  exists l w' ys,
    randperm (InArr a) w = (Ret l, w')
    /\ heap w' !! l = Some ys
    /\ Permutation ys xs
    /\ length ys = length xs.
Proof.
  intros Hwf Ha Hne.
  destruct (randperm_contents w (InArr a) xs Hwf (randperm_array_contents w a xs Ha))
    as (l & w' & Hrun & _ & Hres & _ & _).
  destruct (draws_rest (S (length xs)) (this w) xs Hne ltac:(lia)) as [x Hx].
  pose proof (draws_perm (S (length xs)) (this w) xs) as Hperm.
  rewrite Hx in Hres, Hperm. cbn [shifted] in Hres.
  eexists l, w', _. split; [exact Hrun |]. split; [exact Hres |].
  split; [exact Hperm | apply Permutation_length, Hperm].
Qed.

Lemma randperm_permutation_witness :
  exists l w' ys,
    randperm (InArr 1%positive) (one_array [VNum 10; VNum 20; VNum 30]) = (Ret l, w')
    /\ heap w' !! l = Some ys
    /\ Permutation ys [VNum 10; VNum 20; VNum 30].
Proof.
  destruct (randperm_permutation (one_array [VNum 10; VNum 20; VNum 30]) 1%positive
              [VNum 10; VNum 20; VNum 30] default_wf eq_refl ltac:(discriminate))
    as (l & w' & ys & Hrun & Hres & Hperm & _).
  exists l, w', ys. split; [exact Hrun |]. split; [exact Hres | exact Hperm].
Defined.

(** X12.  [permute] leaves in the array a permutation of what it held (for
    every array, the empty one included), and touches no other array that
    existed before the call. *)
Theorem permute_permutation (w : world) (a : loc) (xs : list value) :
  wf (this w) -> heap w !! a = Some xs ->
  exists w' ys,
    permute a w = (Ret tt, w')
    /\ heap w' !! a = Some ys
    /\ Permutation ys xs
    /\ forall b, b <> a -> is_Some (heap w !! b) -> heap w' !! b = heap w !! b.
Proof.
  intros Hwf Ha.
  destruct (permute_run w a xs Hwf Ha) as (w' & Hrun & Hres & _ & Hframe).
  eexists w', _. split; [exact Hrun |]. split; [exact Hres |].
  split; [apply draws_perm | exact Hframe].
Qed.

Lemma permute_permutation_witness :
  exists w' ys,
    permute 1%positive (one_array [VNum 10; VNum 20; VNum 30]) = (Ret tt, w')
    /\ heap w' !! 1%positive = Some ys
    /\ Permutation ys [VNum 10; VNum 20; VNum 30].
Proof.
  destruct (permute_permutation (one_array [VNum 10; VNum 20; VNum 30]) 1%positive
              [VNum 10; VNum 20; VNum 30] default_wf eq_refl)
    as (w' & ys & Hrun & Hres & Hperm & _).
  exists w', ys. split; [exact Hrun |]. split; [exact Hres | exact Hperm].
Defined.

(** X13.  On an array of length [n], [randperm] and [permute] each advance the
    generator exactly [n - 1] times (not at all for [n <= 1]) and leave a
    generator with 64-bit fields. *)
Theorem permutation_draw_count (w : world) (a : loc) (xs : list value) :
  wf (this w) -> heap w !! a = Some xs ->
  this (snd (randperm (InArr a) w)) = Nat.iter (length xs - 1) next_gen (this w)
  /\ this (snd (permute a w)) = Nat.iter (length xs - 1) next_gen (this w)
  /\ wf (Nat.iter (length xs - 1) next_gen (this w)).
Proof.
  intros Hwf Ha.
  destruct (randperm_contents w (InArr a) xs Hwf (randperm_array_contents w a xs Ha))
    as (l & w1 & Hr & _ & _ & Hg1 & _).
  destruct (permute_run w a xs Hwf Ha) as (w2 & Hp & _ & Hg2 & _).
  rewrite Hr, Hp. cbn [snd].
  rewrite Hg1, Hg2, draws_gen by lia.
  split; [reflexivity |]. split; [reflexivity |].
  apply iter_next_gen_wf, Hwf.
Qed.

Lemma permutation_draw_count_witness :
  this (snd (permute 1%positive (one_array [VNum 10; VNum 20; VNum 30])))
  = next_gen (next_gen default_RNG).
Proof.
  destruct (permutation_draw_count (one_array [VNum 10; VNum 20; VNum 30]) 1%positive
              [VNum 10; VNum 20; VNum 30] default_wf eq_refl) as (_ & H & _).
  exact H.
Defined.

Lemma permute_randperm_nonempty_witness :
  exists l w1' w2',
    randperm (InArr 1%positive) (one_array [VNum 10; VNum 20]) = (Ret l, w1')
    /\ permute 1%positive (one_array [VNum 10; VNum 20]) = (Ret tt, w2')
    /\ heap w2' !! 1%positive = heap w1' !! l.
Proof.
  destruct (permute_randperm_nonempty (one_array [VNum 10; VNum 20])
              (one_array [VNum 10; VNum 20]) 1%positive 1%positive
              [VNum 10; VNum 20] default_wf eq_refl ltac:(discriminate) eq_refl eq_refl)
    as (l & w1' & w2' & Hr & Hp & He & _).
  exists l, w1', w2'. split; [exact Hr |]. split; [exact Hp | exact He].
Defined.

Lemma iota_in_range (n : Z) (w : world) :
  0 <= n < 2 ^ 32 ->
  iota (Num n) w = (Ret (map (fun i => VNum (Z.of_nat i)) (seq 0 (Z.to_nat n))), w).
Proof.
  intros Hn. unfold iota.
  destruct (Z.leb_spec 0 n); [| lia].
  destruct (Z.ltb_spec n 4294967296); [reflexivity | lia].
Qed.

(** X14.  Given a number [n] with [0 < n < 2^32], [randperm(n)] returns a new
    array holding a permutation of [0, 1, ..., n - 1], advances the generator
    exactly [n - 1] times and touches no existing array. *)
Theorem randperm_number (w : world) (n : Z) :
  wf (this w) -> 0 < n < 2 ^ 32 ->
  exists l w' ys,
    randperm (InNum (Num n)) w = (Ret l, w')
    /\ heap w !! l = None
    /\ heap w' !! l = Some ys
    /\ Permutation ys (map (fun i => VNum (Z.of_nat i)) (seq 0 (Z.to_nat n)))
    /\ this w' = Nat.iter (Z.to_nat n - 1) next_gen (this w)
    /\ forall b, is_Some (heap w !! b) -> heap w' !! b = heap w !! b.
Proof.
  intros Hwf Hn.
  set (xs := map (fun i => VNum (Z.of_nat i)) (seq 0 (Z.to_nat n))).
  assert (Hlen : length xs = Z.to_nat n).
  { subst xs. now rewrite length_map, length_seq. }
  assert (Hne : xs <> []).
  { intros E. rewrite E in Hlen. cbn in Hlen. lia. }
  destruct (randperm_contents w (InNum (Num n)) xs Hwf) as (l & w' & Hrun & Hf & Hres & Hg & Hfr).
  { cbv zeta. apply iota_in_range. lia. }
  destruct (draws_rest (S (length xs)) (this w) xs Hne ltac:(lia)) as [x Hx].
  pose proof (draws_perm (S (length xs)) (this w) xs) as Hperm.
  rewrite Hx in Hres, Hperm. cbn [shifted] in Hres.
  rewrite draws_gen, Hlen in Hg by lia.
  eexists l, w', _. repeat split; eassumption.
Qed.

Lemma randperm_number_witness :
  exists l w' ys,
    randperm (InNum (Num 5)) default_world = (Ret l, w')
    /\ heap w' !! l = Some ys
    /\ Permutation ys [VNum 0; VNum 1; VNum 2; VNum 3; VNum 4].
Proof.
  destruct (randperm_number default_world 5 default_wf ltac:(lia))
    as (l & w' & ys & Hrun & _ & Hres & Hperm & _).
  exists l, w', ys. split; [exact Hrun |]. split; [exact Hres | exact Hperm].
Defined.

(** X15.  Given a number that is no array length ([NaN], negative, or
    [2^32] and above), [randperm] throws the RangeError of [Array(n)] without
    drawing: the generator and every existing array are as before. *)
Theorem randperm_bad_number (w : world) (n : number Z) :
  match n with
  | NaN => True
  | Num z => z < 0 \/ 2 ^ 32 <= z
  end ->
  exists w',
    randperm (InNum n) w = (Throw RangeError, w')
    /\ this w' = this w
    /\ forall b, is_Some (heap w !! b) -> heap w' !! b = heap w !! b.
Proof.
  intros Hn.
  set (l := fresh (dom (heap w))).
  set (w1 := mkWorld (this w) (<[l := []]> (heap w))).
  assert (Hiota : iota n w1 = (Throw RangeError, w1)).
  { unfold iota. destruct n as [| z]; [reflexivity |].
    destruct (Z.leb_spec 0 z); [| reflexivity].
    destruct (Z.ltb_spec z 4294967296); [lia | reflexivity]. }
  exists w1. split; [| split].
  - unfold randperm.
    rewrite (bind_Ret (alloc []) _ w l w1 eq_refl).
    now apply bind_Throw.
  - reflexivity.
  - intros b [ys Hb]. subst w1. cbn.
    rewrite lookup_insert_ne; [reflexivity |].
    intros E. subst b. unfold l in Hb. rewrite fresh_lookup in Hb. discriminate.
Qed.

Lemma randperm_bad_number_witness :
  fst (randperm (InNum (Num (-1))) default_world) = Throw RangeError.
Proof.
  destruct (randperm_bad_number default_world (Num (-1))) as (w' & H & _).
  - left. lia.
  - now rewrite H.
Defined.

(** ** [choose] and [init] on every input *)

(** X16.  From a generator with 64-bit fields [choose] never returns.  With
    [items] of another length it throws a RangeError at once; otherwise, with
    no weights it throws the TypeError of [reduce] on an empty array, in both
    cases before drawing; otherwise it draws once and throws the
    ReferenceError of line 112. *)
Theorem choose_never_returns (w : world) (probabilities : list Q)
        (array : option (list value)) :
  wf (this w) ->
  let lengths_agree :=
    match array with
    | Some items => (length probabilities =? length items)%nat
    | None => true
    end in
  choose probabilities array w
  = (if negb lengths_agree then (Throw RangeError, w)
     else match probabilities with
          | [] => (Throw TypeError, w)
          | _ :: _ => (Throw ReferenceError,
                       set_state (advance (this w) (state (this w))) w)
          end)
  /\ forall v w', choose probabilities array w <> (Ret v, w').
Proof.
  intros Hwf lengths_agree.
  assert (E : choose probabilities array w
              = (if negb lengths_agree then (Throw RangeError, w)
                 else match probabilities with
                      | [] => (Throw TypeError, w)
                      | _ :: _ => (Throw ReferenceError,
                                   set_state (advance (this w) (state (this w))) w)
                      end)).
  { unfold choose. subst lengths_agree.
    destruct array as [items |].
    - destruct (length probabilities =? length items)%nat; cbn [negb].
      + rewrite (bind_Ret (ret items) _ w items w eq_refl).
        destruct probabilities as [| x xs]; [reflexivity |].
        rewrite (bind_Ret (reduce_add (x :: xs)) _ w (fold_left Qplus xs x) w eq_refl).
        destruct (rand_one_bound_state w (Num (fold_left Qplus xs x)) Hwf) as [r Hr].
        run Hr. reflexivity.
      + reflexivity.
    - cbn [negb].
      rewrite (bind_Ret (ret _) _ w _ w eq_refl).
      destruct probabilities as [| x xs]; [reflexivity |].
      rewrite (bind_Ret (reduce_add (x :: xs)) _ w (fold_left Qplus xs x) w eq_refl).
      destruct (rand_one_bound_state w (Num (fold_left Qplus xs x)) Hwf) as [r Hr].
      run Hr. reflexivity. }
  split; [exact E |].
  intros v w'. rewrite E.
  destruct (negb lengths_agree); [discriminate |].
  destruct probabilities; discriminate.
Qed.

Lemma choose_never_returns_witness :
  choose [] None default_world = (Throw TypeError, default_world).
Proof.
  destruct (choose_never_returns default_world [] None default_wf) as [H _].
  exact H.
Defined.

Lemma init_eq (w : world) (seed : Z) :
  0 <= (seed + increment (this w)) * multiplier (this w) + increment (this w) ->
  init seed w
  = (Ret tt, set_state (advance (this w) (seed + increment (this w))) w).
Proof.
  intros Hpos. unfold init.
  rewrite (bind_Ret get_this _ w (this w) w eq_refl).
  rewrite (bind_Ret (put_state _) _ w tt
             (set_state (seed + increment (this w)) w) eq_refl).
  run (call_eq (set_state (seed + increment (this w)) w) Hpos).
  reflexivity.
Qed.

(** X17.  [init] discards the state it finds: for a seed in [[0, 2^64)] and a
    64-bit multiplier and increment, [init(seed)] returns from any previous
    state, valid or not, always with the same result, and leaves a generator
    with 64-bit fields. *)
Theorem init_discards_state (w : world) (seed s : Z) :
  u64 seed -> u64 (multiplier (this w)) -> u64 (increment (this w)) ->
  init seed (set_state s w) = init seed w
  /\ fst (init seed w) = Ret tt
  /\ wf (this (snd (init seed w))).
Proof.
  intros Hseed Hm Hi.
  assert (Hpos : 0 <= (seed + increment (this w)) * multiplier (this w)
                      + increment (this w)) by (unfold u64 in *; nia).
  rewrite (init_eq (set_state s w) seed Hpos), (init_eq w seed Hpos).
  split; [reflexivity |]. split; [reflexivity |].
  cbn. unfold wf. cbn. split; [apply advance_u64 | tauto].
Qed.

Lemma init_discards_state_witness :
  init 42 (set_state (-1) default_world) = init 42 default_world.
Proof.
  destruct (init_discards_state default_world 42 (-1)) as [H _];
    [unfold u64; cbn; lia .. | exact H].
Defined.

(** X18.  [init] is not atomic.  When the seed makes
    [(seed + increment) * multiplier + increment] negative but above [-2^63],
    the [call] inside throws a SyntaxError after line 41 has already stored
    [seed + increment]: the generator is left in that state. *)
Theorem init_negative_seed (w : world) (seed : Z) :
  - 2 ^ 63 < (seed + increment (this w)) * multiplier (this w) + increment (this w) < 0 ->
  init seed w = (Throw SyntaxError, set_state (seed + increment (this w)) w).
Proof.
  intros H. unfold init.
  rewrite (bind_Ret get_this _ w (this w) w eq_refl).
  rewrite (bind_Ret (put_state _) _ w tt
             (set_state (seed + increment (this w)) w) eq_refl).
  apply bind_Throw. unfold call.
  rewrite (bind_Ret get_this _ _ _ _ eq_refl).
  apply bind_Throw. cbn [this set_state state multiplier increment].
  apply BigInt_small_negative. lia.
Qed.

Lemma init_negative_seed_witness :
  init (-1442695040888963408) default_world
  = (Throw SyntaxError, set_state (-1) default_world).
Proof. apply (init_negative_seed default_world (-1442695040888963408)). cbn. lia. Defined.

(** ** The state advance as a permutation of states *)

Lemma gcd_pow2_odd (m : Z) : Z.odd m = true -> Z.gcd (2 ^ 64) m = 1.
Proof.
  intros Hodd. apply Z.coprime_pow_l; [lia |].
  apply Z.coprime_mod_r_iff.
  rewrite Zmod_odd, Hodd. reflexivity.
Qed.

Lemma advance_injective (g : RNG) (x y : Z) :
  Z.odd (multiplier g) = true -> u64 x -> u64 y ->
  advance g x = advance g y -> x = y.
Proof.
  unfold advance, u64. intros Hodd Hx Hy H.
  assert (Hdiv : (2 ^ 64 | (x - y) * multiplier g)).
  { apply Z.mod_divide; [lia |].
    replace ((x - y) * multiplier g)
      with ((x * multiplier g + increment g) - (y * multiplier g + increment g)) by ring.
    rewrite Zminus_mod, H, Z.sub_diag. reflexivity. }
  rewrite Z.mul_comm in Hdiv.
  apply Z.gauss in Hdiv; [| apply gcd_pow2_odd, Hodd].
  destruct Hdiv as [k Hk]. nia.
Qed.

(** X21.  With an odd multiplier (the default one is odd) no two states merge:
    if two generators with the same multiplier and increment hold the same
    state after a [call], they held the same state before it. *)
Theorem call_state_injective (w1 w2 : world) :
  wf (this w1) -> wf (this w2) ->
  multiplier (this w1) = multiplier (this w2) ->
  increment (this w1) = increment (this w2) ->
  Z.odd (multiplier (this w1)) = true ->
  state (this (snd (call w1))) = state (this (snd (call w2))) ->
  state (this w1) = state (this w2).
Proof.
  intros Hwf1 Hwf2 Hm Hi Hodd H.
  rewrite (call_returns w1 Hwf1), (call_returns w2 Hwf2) in H. cbn in H.
  apply (advance_injective (this w1)); [exact Hodd | apply Hwf1 | apply Hwf2 |].
  rewrite H. unfold advance. now rewrite Hm, Hi.
Qed.

Lemma call_state_injective_witness :
  state (this default_world) = state (this default_world).
Proof.
  apply (call_state_injective default_world default_world default_wf default_wf
           eq_refl eq_refl eq_refl eq_refl).
Defined.
